(** * YouTube transcriber server: the transcript store, the reference
      resolver and the search engine of [dist/index.js]

    The development embeds the methods of [YouTubeTranscriberServer] as Rocq
    functions and proves the properties of the specification about them.

    Modelling conventions.
    - A JavaScript string is a sequence of UTF-16 code units.  The model
      keeps the code units below 256 (Latin-1), one per [ascii], so that
      [toLowerCase], [trim] and the classes [\s] and [.] are the exact
      restrictions of the JavaScript ones.
    - A JavaScript number that holds a time is an exact rational ([Q]);
      rounding of doubles, [NaN] and the infinities are not modelled.
    - [this.videos] is a [Map]: an association list in insertion order.
    - The two host functions the code calls, the caption provider
      [YoutubeTranscript.fetchTranscript] and [String.prototype.localeCompare],
      are parameters of the server. *)

From Stdlib Require Import Bool Arith ZArith QArith Qround Lia Lqa List.
From Stdlib Require Import Ascii String DecimalString.
From Stdlib Require Import Sorted Permutation.
Import ListNotations.

Local Open Scope list_scope.
Local Open Scope string_scope.

(* ================================================================== *)
(** ** JavaScript strings *)

Module JsString.

Definition code (c : ascii) : nat := nat_of_ascii c.

Definition between (lo hi n : nat) : bool := (lo <=? n)%nat && (n <=? hi)%nat.

(** WhiteSpace and LineTerminator code units below 256: TAB, LF, VT, FF,
    CR, SP and NBSP.  This is the set [\s] of regular expressions and the
    set [trim] strips. *)
Definition is_space (c : ascii) : bool :=
  let n := code c in
  between 9 13 n || (n =? 32)%nat || (n =? 160)%nat.

(** LineTerminator code units below 256: LF and CR ([.] excludes them). *)
Definition is_line_terminator (c : ascii) : bool :=
  let n := code c in (n =? 10)%nat || (n =? 13)%nat.

(** Upper-case letters of Latin-1: A-Z and U+00C0..U+00DE but U+00D7. *)
Definition is_upper (c : ascii) : bool :=
  let n := code c in
  between 65 90 n || (between 192 222 n && negb (n =? 215)%nat).

Definition lower_char (c : ascii) : ascii :=
  if is_upper c then ascii_of_nat (code c + 32) else c.

(** [s.toLowerCase()] *)
Fixpoint toLowerCase (s : string) : string :=
  match s with
  | EmptyString => EmptyString
  | String c s' => String (lower_char c) (toLowerCase s')
  end.

Fixpoint trimStart (s : string) : string :=
  match s with
  | EmptyString => EmptyString
  | String c s' => if is_space c then trimStart s' else s
  end.

Fixpoint rev_string (s : string) : string :=
  match s with
  | EmptyString => EmptyString
  | String c s' => rev_string s' ++ String c EmptyString
  end.

Definition trimEnd (s : string) : string := rev_string (trimStart (rev_string s)).

(** [s.trim()] *)
Definition trim (s : string) : string := trimEnd (trimStart s).

(** [s.includes(q)] *)
Fixpoint includes (s q : string) : bool :=
  if String.prefix q s then true
  else match s with
       | EmptyString => false
       | String _ s' => includes s' q
       end.

(** [l.join(sep)] on an array of strings *)
Definition join (sep : string) (l : list string) : string := String.concat sep l.

(** A string is falsy exactly when it is empty. *)
Definition truthy (s : string) : bool :=
  match s with EmptyString => false | _ => true end.

(** [String(n)] for a non-negative integer *)
Definition of_nat (n : nat) : string := NilEmpty.string_of_uint (Nat.to_uint n).

Fixpoint all (p : ascii -> bool) (s : string) : bool :=
  match s with
  | EmptyString => true
  | String c s' => p c && all p s'
  end.

(** [consumed s rest]: what was read of [s] when [rest] is left. *)
Fixpoint take (n : nat) (s : string) : string :=
  match n, s with
  | S n', String c s' => String c (take n' s')
  | _, _ => EmptyString
  end.

Definition consumed (s rest : string) : string :=
  take (String.length s - String.length rest) s.

End JsString.
Import JsString.

(* ================================================================== *)
(** ** Regular expressions

    The fragment of JavaScript regular expressions the two resolvers use,
    with the backtracking semantics of the language: alternatives are tried
    left to right, quantifiers are greedy, and a search tries the start
    positions from left to right. *)

Module Regex.

Inductive regex : Type :=
| Lit (t : string)                      (* literal text *)
| Class (p : ascii -> bool) (n : nat)   (* [...]{n} *)
| Star (p : ascii -> bool)              (* [...]* and .* *)
| Alt (r1 r2 : regex)                   (* r1|r2 *)
| Opt (r : regex)                       (* (?:r)? and c? *)
| Seq (r1 r2 : regex)                   (* r1r2 *)
| Group (r : regex).                    (* (r), the capture group *)

Fixpoint strip_prefix (t s : string) : option string :=
  match t, s with
  | EmptyString, _ => Some s
  | String a t', String b s' => if Ascii.eqb a b then strip_prefix t' s' else None
  | String _ _, EmptyString => None
  end.

Fixpoint strip_class (p : ascii -> bool) (n : nat) (s : string) : option string :=
  match n, s with
  | O, _ => Some s
  | S n', String c s' => if p c then strip_class p n' s' else None
  | S _, EmptyString => None
  end.

Section Run.
Context {A : Type}.

(** Greedy iteration: the longest run first, then shorter ones. *)
Fixpoint star (p : ascii -> bool) (s : string) (k : string -> option A) : option A :=
  match s with
  | String c s' =>
      if p c then
        match star p s' k with
        | Some x => Some x
        | None => k s
        end
      else k s
  | EmptyString => k s
  end.

(** [run r s cap k]: match [r] at the head of [s], then continue with
    [k] on what is left and on the capture; [None] makes the matcher
    backtrack. *)
Fixpoint run (r : regex) (s : string) (cap : option string)
         (k : string -> option string -> option A) : option A :=
  match r with
  | Lit t =>
      match strip_prefix t s with
      | Some s' => k s' cap
      | None => None
      end
  | Class p n =>
      match strip_class p n s with
      | Some s' => k s' cap
      | None => None
      end
  | Star p => star p s (fun s' => k s' cap)
  | Alt r1 r2 =>
      match run r1 s cap k with
      | Some x => Some x
      | None => run r2 s cap k
      end
  | Opt r1 =>
      match run r1 s cap k with
      | Some x => Some x
      | None => k s cap
      end
  | Seq r1 r2 => run r1 s cap (fun s' cap' => run r2 s' cap' k)
  | Group r1 => run r1 s cap (fun s' _ => k s' (Some (consumed s s')))
  end.
End Run.

(** The result of a match: [m0] is [match[0]], [m1] is [match[1]]. *)
Record result : Type := { m0 : string; m1 : option string }.

Definition match_here (r : regex) (s : string) : option result :=
  run r s None (fun s' cap => Some {| m0 := consumed s s'; m1 := cap |}).

(** [s.match(r)] for a pattern without flags, and the first element of
    [s.match(r)] for a pattern with the [g] flag: the leftmost match. *)
Fixpoint exec (r : regex) (s : string) : option result :=
  match match_here r s with
  | Some m => Some m
  | None =>
      match s with
      | EmptyString => None
      | String _ s' => exec r s'
      end
  end.

(** [/^r$/.test(s)]: without the [m] flag the anchors are the two ends of
    the input. *)
Definition test_whole (r : regex) (s : string) : bool :=
  match run r s None (fun s' _ => if String.eqb s' "" then Some tt else None) with
  | Some _ => true
  | None => false
  end.

(** The words of a pattern: what it can match, whatever the priorities. *)
Inductive lang : regex -> string -> Prop :=
| lang_Lit t : lang (Lit t) t
| lang_Class p n u : String.length u = n -> all p u = true -> lang (Class p n) u
| lang_Star p u : all p u = true -> lang (Star p) u
| lang_AltL r1 r2 u : lang r1 u -> lang (Alt r1 r2) u
| lang_AltR r1 r2 u : lang r2 u -> lang (Alt r1 r2) u
| lang_OptSome r u : lang r u -> lang (Opt r) u
| lang_OptNone r : lang (Opt r) ""
| lang_Seq r1 r2 u v : lang r1 u -> lang r2 v -> lang (Seq r1 r2) (u ++ v)
| lang_Group r u : lang r u -> lang (Group r) u.

(** [derives r u c c']: [r] matches the word [u] and turns the capture [c]
    into [c']. *)
Inductive derives : regex -> string -> option string -> option string -> Prop :=
| derives_Lit t c : derives (Lit t) t c c
| derives_Class p n u c :
    String.length u = n -> all p u = true -> derives (Class p n) u c c
| derives_Star p u c : all p u = true -> derives (Star p) u c c
| derives_AltL r1 r2 u c c' : derives r1 u c c' -> derives (Alt r1 r2) u c c'
| derives_AltR r1 r2 u c c' : derives r2 u c c' -> derives (Alt r1 r2) u c c'
| derives_OptSome r u c c' : derives r u c c' -> derives (Opt r) u c c'
| derives_OptNone r c : derives (Opt r) "" c c
| derives_Seq r1 r2 u v c c' c'' :
    derives r1 u c c' -> derives r2 v c' c'' -> derives (Seq r1 r2) (u ++ v) c c''
| derives_Group r u c c' : derives r u c c' -> derives (Group r) u c (Some u).

(** [occurs r s n u]: the word [u] of [r] occurs in [s] at offset [n]. *)
Definition occurs (r : regex) (s : string) (n : nat) (u : string) : Prop :=
  exists pre post, s = pre ++ u ++ post /\ String.length pre = n /\ lang r u.

End Regex.
Import Regex.

Declare Scope regex_scope.
Delimit Scope regex_scope with re.
Infix ">>" := Seq (at level 61, right associativity) : regex_scope.
Infix "<|>" := Alt (at level 62, right associativity) : regex_scope.

(* ================================================================== *)
(** ** Reference resolver *)

(** [[a-zA-Z0-9_-]] *)
Definition id_char (c : ascii) : bool :=
  let n := code c in
  between 97 122 n || between 65 90 n || between 48 57 n
  || (n =? 95)%nat || (n =? 45)%nat.

(** [[^\s]] *)
Definition not_space (c : ascii) : bool := negb (is_space c).

(** [.] *)
Definition dot (c : ascii) : bool := negb (is_line_terminator c).

(** A video identifier: eleven characters of the identifier alphabet. *)
Definition is_video_id (s : string) : bool :=
  (String.length s =? 11)%nat && all id_char s.

(** The three patterns of [extractUrlFromCommand], in priority order. *)
Definition urlPatterns : list regex :=
  [ (Lit "http" >> Opt (Lit "s") >> Lit "://" >> Opt (Lit "www." <|> Lit "m.") >>
     ((Lit "youtube.com/watch?" >> Star not_space >> Lit "v=") <|> Lit "youtu.be/") >>
     Group (Class id_char 11) >> Star not_space)%re;
    (Lit "youtube.com/watch?" >> Star not_space >> Lit "v=" >>
     Group (Class id_char 11) >> Star not_space)%re;
    (Lit "youtu.be/" >> Group (Class id_char 11) >> Star not_space)%re ].

(** [for (const pattern of patterns) { const match = s.match(pattern);
     if (match) return f(match); } return otherwise;] *)
Fixpoint first_match {A : Type} (patterns : list regex) (s : string)
         (f : result -> A) (otherwise : A) : A :=
  match patterns with
  | [] => otherwise
  | pattern :: patterns' =>
      match exec pattern s with
      | Some m => f m
      | None => first_match patterns' s f otherwise
      end
  end.

Definition extractUrlFromCommand (command : string) : option string :=
  first_match urlPatterns command (fun m => Some (m0 m)) None.

(** The two patterns of [extractVideoId], in priority order. *)
Definition idPattern1 : regex :=
  ((Lit "youtube.com/watch?v=" <|> Lit "youtu.be/" <|> Lit "youtube.com/embed/") >>
   Group (Class id_char 11))%re.

Definition idPattern2 : regex :=
  (Lit "youtube.com/watch?" >> Star dot >> Lit "v=" >> Group (Class id_char 11))%re.

Definition idPatterns : list regex := [idPattern1; idPattern2].

Definition extractVideoId (url : string) : option string :=
  first_match idPatterns url (fun m => m1 m)
    (if test_whole (Class id_char 11) url then Some url else None).

(* ================================================================== *)
(** ** JavaScript numbers, arrays and maps *)

Module JsNumber.

(** [x || 0] on a number: zero is the only falsy rational. *)
Definition or_zero (x : Q) : Q := if Qeq_bool x 0 then 0 else x.

(** [Math.floor(x)] *)
Definition floor (x : Q) : Z := Qfloor x.

(** Rounding towards zero, as the quotient of [%] does. *)
Definition trunc (x : Q) : Z := if Qle_bool 0 x then Qfloor x else Qceiling x.

(** [x % y] *)
Definition rem (x y : Q) : Q := x - y * inject_Z (trunc (x / y)).

End JsNumber.

Module JsArray.
Section Ops.
Context {A : Type}.

(** [l.slice(start, stop)] for integer arguments: a negative index
    counts from the end, and both are clamped to the array. *)
Definition clamp (len i : Z) : Z :=
  if (i <? 0)%Z then Z.max (len + i) 0 else Z.min i len.

Definition slice (l : list A) (start stop : Z) : list A :=
  let len := Z.of_nat (List.length l) in
  let k := clamp len start in
  let final := clamp len stop in
  firstn (Z.to_nat (final - k)) (skipn (Z.to_nat k) l).

(** [l.sort(cmp)].  The sort of the language is stable, and for a
    consistent comparator its result is unique: the elements in
    comparator order, equal ones in their input order.  Insertion from
    the right computes it: [x] goes before the first [y] that it does
    not follow. *)
Fixpoint insert (cmp : A -> A -> Q) (x : A) (l : list A) : list A :=
  match l with
  | [] => [x]
  | y :: l' => if Qle_bool (cmp x y) 0 then x :: l else y :: insert cmp x l'
  end.

Definition sort (cmp : A -> A -> Q) (l : list A) : list A :=
  fold_right (insert cmp) [] l.
End Ops.
End JsArray.

Module JsMap.
Section Ops.
Context {V : Type}.

(** A [Map] with string keys: the entries in insertion order. *)
Definition t : Type := list (string * V).

Definition empty : t := [].

Fixpoint get (k : string) (m : t) : option V :=
  match m with
  | [] => None
  | (k', v) :: m' => if String.eqb k' k then Some v else get k m'
  end.

Definition has (k : string) (m : t) : bool :=
  match get k m with Some _ => true | None => false end.

(** [m.set(k, v)]: a present key keeps its place, a new one goes last. *)
Fixpoint set (k : string) (v : V) (m : t) : t :=
  match m with
  | [] => [(k, v)]
  | (k', v') :: m' =>
      if String.eqb k' k then (k', v) :: m' else (k', v') :: set k v m'
  end.

Fixpoint delete (k : string) (m : t) : t :=
  match m with
  | [] => []
  | (k', v') :: m' => if String.eqb k' k then m' else (k', v') :: delete k m'
  end.

Definition keys (m : t) : list string := map fst m.

Definition size (m : t) : nat := List.length m.

End Ops.
Arguments t : clear implicits.
End JsMap.

(* ================================================================== *)
(** ** Data model *)

(** What the caption provider returns for one caption: times in
    milliseconds. *)
Module Caption.
Record t : Type := { text : string; offset : Q; duration : Q }.
End Caption.

(** A stored transcript entry: times in seconds. *)
Module Entry.
Record t : Type := { text : string; start : Q; duration : Q }.
End Entry.

(** What [getVideoInfo] returns. *)
Module VideoInfo.
Record t : Type := { id : string; url : string; title : string; language : string }.
End VideoInfo.

(** A stored video: the value type of [this.videos]. *)
Module Video.
Record t : Type := {
  id : string;
  url : string;
  title : string;
  language : string;
  transcript : list Entry.t;
  transcriptLength : nat;
  totalDuration : Q
}.
End Video.

(** One element of [allResults]; [searchInTranscript] fills the last five
    fields, [searchTranscripts] the first three. *)
Module Match.
Record t : Type := {
  timestamp : Q;
  duration : Q;
  text : string;
  context : string;
  matchIndex : nat
}.
End Match.

Module Result.
Record t : Type := {
  videoId : string;
  videoUrl : string;
  videoTitle : string;
  found : Match.t
}.
Definition timestamp (r : t) : Q := Match.timestamp (found r).
End Result.

(** The outcome of a tool call.  The server returns a text; each
    constructor stands for one of its [return] statements and carries the
    values the text is built from. *)
Inductive response : Type :=
| UrlNotFound (command : string)
    (* Error: Could not find a YouTube URL in the command: ... *)
| InvalidReference (url : string)
    (* Error: Could not extract video ID from URL: ... *)
| AlreadyLoaded (videoId : string)
    (* Video ... is already loaded. Use 'list_videos' ... *)
| Loaded (videoId url : string) (entries : nat) (language : string) (totalDuration : Q)
    (* Successfully loaded video ... *)
| ProviderError (videoId message : string)
    (* Error loading video ...: ... *)
| EmptyStore
    (* No videos loaded. Use 'add_youtube_video' to add videos first. *)
| InvalidQuery
    (* Error: Search query cannot be empty *)
| NoMatches (query searchedVideos : string)
    (* No matches found for '...' in ... *)
| Matches (query : string) (allResults : list Result.t)
    (* Found ... matches for '...': ... *)
| NoVideos
    (* No videos currently loaded. *)
| VideoList (loaded : list Video.t)
    (* Loaded videos (...): ... *)
| TranscriptNotFound (videoId : string)
    (* Error: Video ... not found. Use 'list_videos' to see loaded videos. *)
| TranscriptJson (videoId : string) (transcript : list Entry.t)
    (* Transcript for ... (JSON format): JSON.stringify(transcript) *)
| TranscriptText (title videoId url : string) (lines : list (Z * Z * string))
    (* Transcript for ... (...): one line [MM:SS] text per entry *)
| RemoveNotFound (videoId : string)
    (* Error: Video ... not found. *)
| Removed (title videoId : string)
    (* Removed video: ... (...) *)
| Cleared (count : nat).
    (* Cleared ... video(s) from memory. *)

(** The reports whose text begins with [Error]. *)
Definition is_error (r : response) : bool :=
  match r with
  | UrlNotFound _ | InvalidReference _ | ProviderError _ _ | InvalidQuery
  | TranscriptNotFound _ | RemoveNotFound _ => true
  | _ => false
  end.

(** The arguments of the tools, as the handlers destructure them; an
    optional argument is an [option]. *)
Record transcribe_args : Type := { command : string; t_language : option string }.
Record add_args : Type := { url : string; language : option string }.
Record search_args : Type := {
  query : option string;
  videoIds : option (list string);
  contextWords : option Z
}.
Record transcript_args : Type := { videoId : string; format : option string }.
Record remove_args : Type := { r_videoId : string }.

Inductive request : Type :=
| transcribe_youtube (args : transcribe_args)
| add_youtube_video (args : add_args)
| search_transcripts (args : search_args)
| list_videos
| get_video_transcript (args : transcript_args)
| remove_video (args : remove_args)
| clear_all_videos.

(** [{ x = d } = args] *)
Definition default {A : Type} (d : A) (x : option A) : A :=
  match x with Some v => v | None => d end.

(* ================================================================== *)
(** ** The server *)

(** The state of a server: the stored videos, and the calls made to the
    caption provider so far, oldest first. *)
Record server : Type := {
  videos : JsMap.t Video.t;
  fetched : list (string * string)
}.

(** [new YouTubeTranscriberServer()] *)
Definition initial : server := {| videos := JsMap.empty; fetched := [] |}.

(** Handlers run in a state monad over [server]. *)
Definition M (A : Type) : Type := server -> A * server.

Definition ret {A : Type} (x : A) : M A := fun st => (x, st).

Definition bind {A B : Type} (m : M A) (f : A -> M B) : M B :=
  fun st => let (x, st') := m st in f x st'.

Notation "x <- m ;; f" := (bind m (fun x => f))
  (at level 100, m at next level, right associativity).
Notation "m ;;; f" := (bind m (fun _ => f))
  (at level 100, right associativity).

Definition get_videos : M (JsMap.t Video.t) := fun st => (videos st, st).

Definition update_videos (f : JsMap.t Video.t -> JsMap.t Video.t) : M unit :=
  fun st => (tt, {| videos := f (videos st); fetched := fetched st |}).

(** [getVideoInfo] *)
Definition getVideoInfo (videoId : string) : VideoInfo.t :=
  {| VideoInfo.id := videoId;
     VideoInfo.url := "https://www.youtube.com/watch?v=" ++ videoId;
     VideoInfo.title := "Video " ++ videoId;
     VideoInfo.language := "en" |}.

(** [transcript.length > 0 ? last.start + (last.duration || 0) : 0], where
    [last] is [transcript[transcript.length - 1]]. *)
Definition totalDurationOf (transcript : list Entry.t) : Q :=
  if (0 <? List.length transcript)%nat then
    match nth_error transcript (List.length transcript - 1) with
    | Some lastEntry =>
        Entry.start lastEntry + JsNumber.or_zero (Entry.duration lastEntry)
    | None => 0
    end
  else 0.

(** The body of the [forEach] of [searchInTranscript], from index [i] on. *)
Fixpoint scan (transcript : list Entry.t) (queryLower : string) (contextWords : Z)
         (i : nat) (entries : list Entry.t) : list Match.t :=
  match entries with
  | [] => []
  | entry :: entries' =>
      (if includes (toLowerCase (Entry.text entry)) queryLower then
         let startIdx := Z.max 0 (Z.of_nat i - contextWords) in
         let endIdx :=
           Z.min (Z.of_nat (List.length transcript)) (Z.of_nat i + contextWords + 1) in
         let contextEntries := JsArray.slice transcript startIdx endIdx in
         let contextText := join " " (map Entry.text contextEntries) in
         [ {| Match.timestamp := Entry.start entry;
              Match.duration := JsNumber.or_zero (Entry.duration entry);
              Match.text := Entry.text entry;
              Match.context := contextText;
              Match.matchIndex := i |} ]
       else [])
      ++ scan transcript queryLower contextWords (S i) entries'
  end%list.

Definition searchInTranscript (transcript : list Entry.t) (query : string)
           (contextWords : Z) : list Match.t :=
  scan transcript (toLowerCase query) contextWords 0 transcript.

Section Server.

(** [a.localeCompare(b)]: negative, zero or positive. *)
Variable localeCompare : string -> string -> Z.

(** [YoutubeTranscript.fetchTranscript(videoId, { lang })] after the calls
    of the history: the captions, or the message of the error thrown. *)
Variable fetchTranscript :
  list (string * string) -> string -> string -> string + list Caption.t.

Definition fetch (videoId lang : string) : M (string + list Caption.t) :=
  fun st =>
    (fetchTranscript (fetched st) videoId lang,
     {| videos := videos st; fetched := (fetched st ++ [(videoId, lang)])%list |}).

Definition addYouTubeVideo (args : add_args) : M response :=
  let url := url args in
  let language := default "en" (language args) in
  match extractVideoId url with
  | None => ret (InvalidReference url)
  | Some videoId =>
      if negb (truthy videoId) then ret (InvalidReference url)
      else
        loaded <- get_videos ;;
        if JsMap.has videoId loaded then ret (AlreadyLoaded videoId)
        else
          fetchResult <- fetch videoId language ;;
          match fetchResult with
          | inl message => ret (ProviderError videoId message)
          | inr transcriptData =>
              let transcript :=
                map (fun entry =>
                       {| Entry.text := Caption.text entry;
                          Entry.start := Caption.offset entry / 1000;
                          Entry.duration := Caption.duration entry / 1000 |})
                    transcriptData in
              let videoInfo := getVideoInfo videoId in
              let totalDuration := totalDurationOf transcript in
              let videoData :=
                {| Video.id := VideoInfo.id videoInfo;
                   Video.url := VideoInfo.url videoInfo;
                   Video.title := VideoInfo.title videoInfo;
                   Video.language := language;
                   Video.transcript := transcript;
                   Video.transcriptLength := List.length transcript;
                   Video.totalDuration := totalDuration |} in
              update_videos (JsMap.set videoId videoData) ;;;
              ret (Loaded videoId (VideoInfo.url videoInfo) (List.length transcript)
                     language totalDuration)
          end
  end.

Definition transcribeFromCommand (args : transcribe_args) : M response :=
  let command := command args in
  let language := default "en" (t_language args) in
  match extractUrlFromCommand command with
  | None => ret (UrlNotFound command)
  | Some extractedUrl =>
      if negb (truthy extractedUrl) then ret (UrlNotFound command)
      else addYouTubeVideo {| url := extractedUrl; language := Some language |}
  end.

(** The comparator of [allResults.sort]. *)
Definition compareResults (a b : Result.t) : Q :=
  if String.eqb (Result.videoId a) (Result.videoId b)
  then Result.timestamp a - Result.timestamp b
  else inject_Z (localeCompare (Result.videoId a) (Result.videoId b)).

(** The [for] loop of [searchTranscripts] that fills [allResults]. *)
Fixpoint collect (loaded : JsMap.t Video.t) (query : string) (contextWords : Z)
         (searchIds : list string) : list Result.t :=
  match searchIds with
  | [] => []
  | videoId :: searchIds' =>
      match JsMap.get videoId loaded with
      | None => collect loaded query contextWords searchIds'
      | Some videoData =>
          let results :=
            searchInTranscript (Video.transcript videoData) query contextWords in
          (map (fun result =>
                  {| Result.videoId := videoId;
                     Result.videoUrl := Video.url videoData;
                     Result.videoTitle := Video.title videoData;
                     Result.found := result |}) results
           ++ collect loaded query contextWords searchIds')%list
      end
  end.

Definition searchTranscripts (args : search_args) : M response :=
  let contextWords := default 5%Z (contextWords args) in
  loaded <- get_videos ;;
  if (JsMap.size loaded =? 0)%nat then ret EmptyStore
  else
    match query args with
    | None => ret InvalidQuery
    | Some query =>
        if negb (truthy (trim query)) then ret InvalidQuery
        else
          let searchIds :=
            match videoIds args with
            | Some ids => ids
            | None => JsMap.keys loaded
            end in
          let allResults := collect loaded query contextWords searchIds in
          if (List.length allResults =? 0)%nat then
            let searchedVideos :=
              if (List.length searchIds <=? 3)%nat then join ", " searchIds
              else of_nat (List.length searchIds) ++ " videos" in
            ret (NoMatches query searchedVideos)
          else ret (Matches query (JsArray.sort compareResults allResults))
    end.

Definition listVideos : M response :=
  loaded <- get_videos ;;
  if (JsMap.size loaded =? 0)%nat then ret NoVideos
  else ret (VideoList (map snd loaded)).

Definition getVideoTranscript (args : transcript_args) : M response :=
  let videoId := videoId args in
  let format := default "text" (format args) in
  loaded <- get_videos ;;
  match JsMap.get videoId loaded with
  | None => ret (TranscriptNotFound videoId)
  | Some videoData =>
      if String.eqb format "json" then
        ret (TranscriptJson videoId (Video.transcript videoData))
      else
        ret (TranscriptText (Video.title videoData) videoId (Video.url videoData)
               (map (fun entry =>
                       let minutes := JsNumber.floor (Entry.start entry / 60) in
                       let seconds := JsNumber.floor (JsNumber.rem (Entry.start entry) 60) in
                       (minutes, seconds, Entry.text entry))
                    (Video.transcript videoData)))
  end.

Definition removeVideo (args : remove_args) : M response :=
  let videoId := r_videoId args in
  loaded <- get_videos ;;
  match JsMap.get videoId loaded with
  | None => ret (RemoveNotFound videoId)
  | Some videoData =>
      update_videos (JsMap.delete videoId) ;;;
      ret (Removed (Video.title videoData) videoId)
  end.

Definition clearAllVideos : M response :=
  loaded <- get_videos ;;
  let count := JsMap.size loaded in
  update_videos (fun _ => JsMap.empty) ;;;
  ret (Cleared count).

(** The [switch] of the [CallToolRequestSchema] handler. *)
Definition callTool (req : request) : M response :=
  match req with
  | transcribe_youtube args => transcribeFromCommand args
  | add_youtube_video args => addYouTubeVideo args
  | search_transcripts args => searchTranscripts args
  | list_videos => listVideos
  | get_video_transcript args => getVideoTranscript args
  | remove_video args => removeVideo args
  | clear_all_videos => clearAllVideos
  end.

(** The states a server goes through: any sequence of tool calls from
    the initial state. *)
Fixpoint run_calls (reqs : list request) (st : server) : server :=
  match reqs with
  | [] => st
  | req :: reqs' => run_calls reqs' (snd (callTool req st))
  end.

End Server.

(* ================================================================== *)
(** ** Orders on identifiers *)

(** Lexicographic comparison of two lists of weights. *)
Fixpoint compare_keys (a b : list nat) : Z :=
  match a, b with
  | [], [] => 0
  | [], _ :: _ => -1
  | _ :: _, [] => 1
  | x :: a', y :: b' =>
      match Nat.compare x y with
      | Lt => -1
      | Gt => 1
      | Eq => compare_keys a' b'
      end
  end%Z.

Definition code_units (s : string) : list nat := map code (list_ascii_of_string s).

(** The lexicographic order of strings by code unit, the order of [<] on
    strings. *)
Definition codeUnitCompare (a b : string) : Z :=
  compare_keys (code_units a) (code_units b).

(** A collation in the manner of the hosts that implement [localeCompare]
    with the Unicode collation algorithm.  On the identifier alphabet the
    first level orders [_], then [-], then the digits, then the letters
    whatever their case; the last level puts a lower-case letter before its
    upper-case one.  (Outside the alphabet the weights only keep the order
    total.) *)
Definition primary (c : ascii) : nat :=
  let n := code c in
  if (n =? 95)%nat then 1
  else if (n =? 45)%nat then 2
  else if between 48 57 n then 3 + (n - 48)
  else if between 97 122 n then 13 + (n - 97)
  else if between 65 90 n then 13 + (n - 65)
  else 39 + n.

Definition tertiary (c : ascii) : nat :=
  if between 65 90 (code c) then 1 else 0.

(** The sort key of a string: the first-level weights, a separator below
    them all, the last-level weights. *)
Definition sortKey (s : string) : list nat :=
  let l := list_ascii_of_string s in
  (map primary l ++ 0%nat :: map tertiary l)%list.

Definition collationCompare (a b : string) : Z :=
  compare_keys (sortKey a) (sortKey b).

(** The character of given weights. *)
Definition unkey (p t : nat) : ascii :=
  if (p =? 1)%nat then ascii_of_nat 95
  else if (p =? 2)%nat then ascii_of_nat 45
  else if (p <? 13)%nat then ascii_of_nat (48 + (p - 3))
  else if (p <? 39)%nat then
    (if (t =? 1)%nat then ascii_of_nat (65 + (p - 13)) else ascii_of_nat (97 + (p - 13)))
  else ascii_of_nat (p - 39).

(** What the language asks of [localeCompare]: a consistent comparator.
    It is asked on video identifiers only, the strings the server sorts. *)
Record consistent (cmp : string -> string -> Z) : Prop := {
  cmp_antisym : forall a b,
    is_video_id a = true -> is_video_id b = true ->
    ((cmp a b < 0)%Z <-> (cmp b a > 0)%Z);
  cmp_trans : forall a b c,
    is_video_id a = true -> is_video_id b = true -> is_video_id c = true ->
    (cmp a b <= 0)%Z -> (cmp b c <= 0)%Z -> (cmp a c <= 0)%Z;
  cmp_eq : forall a b,
    is_video_id a = true -> is_video_id b = true -> cmp a b = 0%Z -> a = b
}.

(** The order of the returned matches: by identifier under the comparator
    [cmp], then by time. *)
Definition result_le (cmp : string -> string -> Z) (a b : Result.t) : Prop :=
  (cmp (Result.videoId a) (Result.videoId b) < 0)%Z
  \/ (Result.videoId a = Result.videoId b /\ Result.timestamp a <= Result.timestamp b).

(* ================================================================== *)
(** ** The invariant of the store *)

Fixpoint distinct (l : list string) : bool :=
  match l with
  | [] => true
  | k :: l' => negb (existsb (String.eqb k) l') && distinct l'
  end.

(** The keys of [this.videos] are distinct video identifiers, and a record
    is stored under its own [id]. *)
Definition store_ok (m : JsMap.t Video.t) : bool :=
  distinct (JsMap.keys m)
  && forallb (fun kv => is_video_id (fst kv) && String.eqb (Video.id (snd kv)) (fst kv)) m.

(** [substring q s]: [q] occurs in [s]. *)
Definition substring (q s : string) : Prop := exists pre post, s = pre ++ q ++ post.

(** The three beginnings of the first pattern of [extractVideoId]. *)
Definition video_shapes : list string :=
  ["youtube.com/watch?v="; "youtu.be/"; "youtube.com/embed/"].

(** [shape_at input n id]: at offset [n] of [input] stands one of the three
    beginnings followed by the identifier [id]. *)
Definition shape_at (input : string) (n : nat) (id : string) : Prop :=
  exists pre shape rest,
    input = pre ++ shape ++ id ++ rest /\ String.length pre = n
    /\ In shape video_shapes /\ is_video_id id = true.

(** [later_v tail]: further on in [tail], before any end of line, stands
    [v=] followed by an identifier. *)
Definition later_v (tail : string) : Prop :=
  exists w id rest,
    tail = w ++ "v=" ++ id ++ rest /\ all dot w = true /\ is_video_id id = true.

(** [window l lo hi]: the elements of [l] at the positions [lo <= j < hi]. *)
Definition window {A : Type} (l : list A) (lo hi : nat) : list A :=
  firstn (hi - lo) (skipn lo l).

(** How many of the matches are at index [i]. *)
Definition matches_at (results : list Match.t) (i : nat) : nat :=
  List.length (filter (fun r => (Match.matchIndex r =? i)%nat) results).

(* ================================================================== *)
(** ** Sample data *)

Definition caption (text : string) (offset duration : Q) : Caption.t :=
  {| Caption.text := text; Caption.offset := offset; Caption.duration := duration |}.

(** A provider that knows two videos and fails on the others. *)
Definition sample_provider (history : list (string * string)) (videoId lang : string)
  : string + list Caption.t :=
  if String.eqb videoId "dQw4w9WgXcQ" then
    inr [ caption "Never gonna give you up" 0 2000;
          caption "never gonna let you down" 2000 2500 ]
  else if String.eqb videoId "P2DfG5JEAmA" then
    inr [ caption "we never stop" 1500 1000;
          caption "Never say never" 500 700 ]
  else inl "Transcript is disabled on this video".

(** The server after the two videos were added, [P2DfG5JEAmA] first. *)
Definition sample_server : server :=
  run_calls collationCompare sample_provider
    [ add_youtube_video
        {| url := "https://www.youtube.com/watch?v=P2DfG5JEAmA&t=447s"; language := None |};
      add_youtube_video {| url := "https://youtu.be/dQw4w9WgXcQ"; language := Some "en" |} ]
    initial.

(* ================================================================== *)
(** ** Notions for the properties of the resolver *)

(** [ends_with_star p r]: the pattern [r] ends with the iteration [[p]*]. *)
Inductive ends_with_star (p : ascii -> bool) : regex -> Prop :=
| ends_Star : ends_with_star p (Star p)
| ends_Seq r1 r2 : ends_with_star p r2 -> ends_with_star p (Seq r1 r2).

(** [at_boundary p s]: [s] is empty or begins with a character outside
    [p]. *)
Definition at_boundary (p : ascii -> bool) (s : string) : Prop :=
  s = "" \/ exists c s', s = String c s' /\ p c = false.

(* ================================================================== *)
(** ** Notions for the properties of the facade *)

(** The tools that only read the store. *)
Definition read_only (req : request) : bool :=
  match req with
  | search_transcripts _ | list_videos | get_video_transcript _ => true
  | _ => false
  end.

(** The tools that can call the caption provider. *)
Definition may_fetch (req : request) : bool :=
  match req with
  | transcribe_youtube _ | add_youtube_video _ => true
  | _ => false
  end.

(** [frame req st st']: what the call [req] may have done between [st] and
    [st']: at most one call of the provider, for an identifier that was
    not stored, by a tool that fetches; no stored record changed; a record
    gone only by its removal or by a clear; at most one record more. *)
Definition frame (req : request) (st st' : server) : Prop :=
  (fetched st' = fetched st
   \/ (may_fetch req = true
       /\ exists id lang,
            fetched st' = (fetched st ++ [(id, lang)])%list
            /\ is_video_id id = true
            /\ JsMap.has id (videos st) = false))
  /\ (forall k v v',
        JsMap.get k (videos st) = Some v -> JsMap.get k (videos st') = Some v' -> v' = v)
  /\ (forall k v,
        JsMap.get k (videos st) = Some v -> JsMap.get k (videos st') = None ->
        req = remove_video {| r_videoId := k |} \/ req = clear_all_videos)
  /\ (JsMap.size (videos st') <= S (JsMap.size (videos st)))%nat.

(** A stored record is the one [addYouTubeVideo] builds for its key, and
    the provider was called for it with its language. *)
Definition well_formed (st : server) : Prop :=
  forall k v,
    JsMap.get k (videos st) = Some v ->
    is_video_id k = true
    /\ Video.id v = k
    /\ Video.url v = "https://www.youtube.com/watch?v=" ++ k
    /\ Video.title v = "Video " ++ k
    /\ Video.transcriptLength v = List.length (Video.transcript v)
    /\ Video.totalDuration v = totalDurationOf (Video.transcript v)
    /\ In (k, Video.language v) (fetched st).

(* ================================================================== *)
(** ** Sanity checks on the resolver *)

Example extractVideoId_watch :
  extractVideoId "https://www.youtube.com/watch?v=P2DfG5JEAmA&t=447s" = Some "P2DfG5JEAmA".
Proof. reflexivity. Qed.

Example extractVideoId_params_first :
  extractVideoId "https://www.youtube.com/watch?t=447s&v=P2DfG5JEAmA" = Some "P2DfG5JEAmA".
Proof. reflexivity. Qed.

Example extractVideoId_short :
  extractVideoId "https://youtu.be/P2DfG5JEAmA?t=4" = Some "P2DfG5JEAmA".
Proof. reflexivity. Qed.

Example extractVideoId_embed :
  extractVideoId "https://www.youtube.com/embed/dQw4w9WgXcQ" = Some "dQw4w9WgXcQ".
Proof. reflexivity. Qed.

Example extractVideoId_bare : extractVideoId "dQw4w9WgXcQ" = Some "dQw4w9WgXcQ".
Proof. reflexivity. Qed.

Example extractVideoId_none : extractVideoId "invalid command without url" = None.
Proof. reflexivity. Qed.

Example extractUrl_embedded :
  extractUrlFromCommand "please transcribe: https://youtu.be/P2DfG5JEAmA"
  = Some "https://youtu.be/P2DfG5JEAmA".
Proof. reflexivity. Qed.

Example extractUrl_none : extractUrlFromCommand "invalid command without url" = None.
Proof. reflexivity. Qed.


(* ================================================================== *)
(** ** Facts about strings *)

Lemma append_nil_r (s : string) : s ++ "" = s.
Proof. induction s; simpl; congruence. Qed.

Lemma append_assoc (a b c : string) : (a ++ b) ++ c = a ++ b ++ c.
Proof. induction a; simpl; congruence. Qed.

Lemma append_length (a b : string) :
  String.length (a ++ b) = (String.length a + String.length b)%nat.
Proof. induction a; simpl; congruence. Qed.

Lemma append_eq_nil (a b : string) : a ++ b = "" -> a = "" /\ b = "".
Proof. destruct a; simpl; [auto | discriminate]. Qed.

Lemma append_inj_length (a b c d : string) :
  a ++ b = c ++ d -> String.length a = String.length c -> a = c /\ b = d.
Proof.
  revert c; induction a as [|x a IH]; intros [|y c] H L; simpl in *;
    try discriminate; auto.
  injection H as -> H. injection L as L.
  destruct (IH _ H L) as [-> ->]; auto.
Qed.

(** Two splits of one string: one of the left parts extends the other. *)
Lemma append_split (a b c d : string) :
  a ++ b = c ++ d ->
  (String.length a <= String.length c)%nat ->
  exists w, c = a ++ w /\ b = w ++ d.
Proof.
  revert c; induction a as [|x a IH]; intros c H L; simpl in *.
  - exists c; auto.
  - destruct c as [|y c]; simpl in *; [lia|].
    injection H as -> H.
    destruct (IH c H ltac:(lia)) as (w & -> & ->).
    exists w; auto.
Qed.

Lemma all_app (p : ascii -> bool) (a b : string) :
  all p (a ++ b) = all p a && all p b.
Proof. induction a; simpl; [reflexivity | rewrite IHa, andb_assoc; reflexivity]. Qed.

Lemma rev_string_nil (s : string) : rev_string s = "" -> s = "".
Proof.
  destruct s; simpl; auto. intros H.
  apply append_eq_nil in H. destruct H; discriminate.
Qed.

Lemma all_rev_string (p : ascii -> bool) (s : string) :
  all p (rev_string s) = all p s.
Proof.
  induction s; simpl; auto.
  rewrite all_app, IHs; simpl. rewrite andb_true_r. apply andb_comm.
Qed.

Lemma trimStart_blank (s : string) : all is_space s = true -> trimStart s = "".
Proof.
  induction s; simpl; auto. intros H.
  apply andb_true_iff in H as [-> H]. auto.
Qed.

Lemma trimStart_nonblank (s : string) :
  all is_space s = false -> all is_space (trimStart s) = false.
Proof.
  induction s; simpl; auto.
  destruct (is_space a) eqn:E; simpl; auto. rewrite E; auto.
Qed.

(** [trim] leaves nothing exactly of the strings made of white space. *)
Lemma trim_blank (s : string) : trim s = "" <-> all is_space s = true.
Proof.
  unfold trim, trimEnd. split.
  - intros H. apply rev_string_nil in H.
    destruct (all is_space s) eqn:E; auto.
    apply trimStart_nonblank in E.
    rewrite <- all_rev_string in E. apply trimStart_nonblank in E.
    rewrite H in E. discriminate.
  - intros H. rewrite (trimStart_blank s H). reflexivity.
Qed.

Lemma truthy_false (s : string) : truthy s = false <-> s = "".
Proof. destruct s; simpl; split; congruence. Qed.

Lemma prefix_app (q s : string) :
  String.prefix q s = true <-> exists post, s = q ++ post.
Proof.
  revert s; induction q as [|c q IH]; intros s.
  - split; [intros _; exists s; reflexivity | destruct s; reflexivity].
  - destruct s as [|d s]; [split; [discriminate | intros (? & ?); discriminate]|].
    simpl. destruct (ascii_dec c d) as [->|N].
    + rewrite IH. split; intros (post & H); exists post; simpl in *; congruence.
    + split; [discriminate | intros (post & H); simpl in H; congruence].
Qed.

Lemma includes_eq (s q : string) :
  includes s q =
  String.prefix q s
  || match s with EmptyString => false | String _ s' => includes s' q end.
Proof. destruct s; cbn [includes]; destruct (String.prefix q _); reflexivity. Qed.

(** [includes] decides occurrence. *)
Lemma includes_substring (s q : string) : includes s q = true <-> substring q s.
Proof.
  unfold substring. induction s as [|c s IH]; rewrite includes_eq.
  - rewrite orb_false_r, prefix_app. split.
    + intros (post & E). exists "", post. exact E.
    + intros (pre & post & H).
      symmetry in H. apply append_eq_nil in H as (-> & H).
      exists post. auto.
  - rewrite orb_true_iff, prefix_app, IH. split.
    + intros [(post & E) | (pre & post & ->)].
      * exists "", post. exact E.
      * exists (String c pre), post. reflexivity.
    + intros (pre & post & H). destruct pre as [|d pre]; simpl in H.
      * left. eauto.
      * right. injection H as _ H. eauto.
Qed.

(* ================================================================== *)
(** ** Facts about maps *)

Section MapFacts.
Context {V : Type}.
Implicit Types (m : JsMap.t V) (k : string) (v : V).

Lemma existsb_eqb_keys k m :
  existsb (String.eqb k) (JsMap.keys m) = JsMap.has k m.
Proof.
  unfold JsMap.has. induction m as [|[k' v'] m IH]; simpl; auto.
  rewrite (String.eqb_sym k k'). destruct (String.eqb k' k); simpl; auto.
Qed.

Lemma get_In k v m : JsMap.get k m = Some v -> In (k, v) m.
Proof.
  induction m as [|[k' v'] m IH]; simpl; [discriminate|].
  destruct (String.eqb_spec k' k) as [->|N]; intros H; [left; congruence | auto].
Qed.

Lemma has_get k m : JsMap.has k m = true <-> exists v, JsMap.get k m = Some v.
Proof.
  unfold JsMap.has. destruct (JsMap.get k m); split; eauto; try discriminate.
  intros (? & ?); discriminate.
Qed.

Lemma has_false_get k m : JsMap.has k m = false <-> JsMap.get k m = None.
Proof. unfold JsMap.has. destruct (JsMap.get k m); split; congruence. Qed.

Lemma get_set_same k v m : JsMap.get k (JsMap.set k v m) = Some v.
Proof.
  induction m as [|[k' v'] m IH]; simpl.
  - rewrite String.eqb_refl; auto.
  - destruct (String.eqb k' k) eqn:E; simpl; rewrite E; auto.
Qed.

Lemma get_set_other k k' v m :
  k' <> k -> JsMap.get k' (JsMap.set k v m) = JsMap.get k' m.
Proof.
  intros N. induction m as [|[k2 v2] m IH]; simpl.
  - destruct (String.eqb_spec k k'); congruence.
  - destruct (String.eqb_spec k2 k) as [->|N2]; simpl.
    + destruct (String.eqb_spec k k'); congruence.
    + rewrite IH; auto.
Qed.

(** A new key goes last. *)
Lemma set_absent k v m :
  JsMap.get k m = None -> JsMap.set k v m = (m ++ [(k, v)])%list.
Proof.
  induction m as [|[k' v'] m IH]; simpl; auto.
  destruct (String.eqb k' k); [discriminate|]. intros H; rewrite IH; auto.
Qed.

(** With distinct keys, [delete] drops the one entry of the key. *)
Lemma delete_filter k m :
  distinct (JsMap.keys m) = true ->
  JsMap.delete k m = filter (fun kv => negb (String.eqb (fst kv) k)) m.
Proof.
  induction m as [|[k' v'] m IH]; simpl; auto.
  intros D. apply andb_true_iff in D as [D1 D2].
  destruct (String.eqb_spec k' k) as [->|N]; simpl.
  - rewrite existsb_eqb_keys in D1. apply negb_true_iff, has_false_get in D1.
    clear - D1. induction m as [|[k2 v2] m IH]; simpl in *; auto.
    destruct (String.eqb k2 k); [discriminate|]. simpl. f_equal; auto.
  - f_equal; auto.
Qed.

Lemma get_filter_other k k' m :
  k' <> k ->
  JsMap.get k' (filter (fun kv => negb (String.eqb (fst kv) k)) m) = JsMap.get k' m.
Proof.
  intros N. induction m as [|[k2 v2] m IH]; simpl; auto.
  destruct (String.eqb_spec k2 k) as [->|N2]; simpl.
  - destruct (String.eqb_spec k k'); congruence.
  - rewrite IH; auto.
Qed.

Lemma get_filter_same k m :
  JsMap.get k (filter (fun kv => negb (String.eqb (fst kv) k)) m) = None.
Proof.
  induction m as [|[k2 v2] m IH]; simpl; auto.
  destruct (String.eqb k2 k) eqn:E; simpl; auto. rewrite E; auto.
Qed.

Lemma delete_size k v m :
  JsMap.get k m = Some v -> S (JsMap.size (JsMap.delete k m)) = JsMap.size m.
Proof.
  unfold JsMap.size. induction m as [|[k' v'] m IH]; simpl; [discriminate|].
  destruct (String.eqb k' k); simpl; auto.
Qed.

Lemma distinct_filter (f : string * V -> bool) m :
  distinct (JsMap.keys m) = true -> distinct (JsMap.keys (filter f m)) = true.
Proof.
  induction m as [|[k v] m IH]; simpl; auto.
  intros D. apply andb_true_iff in D as [D1 D2].
  assert (E : existsb (String.eqb k) (JsMap.keys (filter f m)) = false).
  { apply negb_true_iff in D1. clear - D1.
    induction m as [|[k2 v2] m IH]; simpl in *; auto.
    apply orb_false_iff in D1 as [D1 D1'].
    destruct (f (k2, v2)); simpl; auto. rewrite D1; auto. }
  destruct (f (k, v)); simpl; auto. rewrite E; auto.
Qed.

End MapFacts.

(* ================================================================== *)
(** ** Facts about the matcher *)

Lemma strip_prefix_spec (t s s' : string) :
  strip_prefix t s = Some s' <-> s = t ++ s'.
Proof.
  revert s; induction t as [|a t IH]; intros s; simpl.
  - split; congruence.
  - destruct s as [|b s]; [split; discriminate|].
    destruct (Ascii.eqb_spec a b) as [->|N].
    + rewrite IH. split; congruence.
    + split; [discriminate | congruence].
Qed.

Lemma strip_class_spec (p : ascii -> bool) (n : nat) (s s' : string) :
  strip_class p n s = Some s' <->
  exists u, s = u ++ s' /\ String.length u = n /\ all p u = true.
Proof.
  revert s; induction n as [|n IH]; intros s; simpl.
  - split.
    + intros [= ->]. exists "". auto.
    + intros (u & -> & L & _). destruct u; [reflexivity | discriminate].
  - destruct s as [|c s].
    + split; [discriminate|]. intros (u & H & L & _).
      destruct u; simpl in *; discriminate.
    + destruct (p c) eqn:E.
      * rewrite IH. split.
        -- intros (u & -> & L & P). exists (String c u). simpl. rewrite E. auto.
        -- intros (u & H & L & P). destruct u as [|d u]; [discriminate|].
           simpl in *. injection H as -> ->. injection L as L.
           apply andb_true_iff in P as [_ P]. eauto.
      * split; [discriminate|]. intros (u & H & L & P).
        destruct u as [|d u]; [discriminate|]. simpl in *.
        injection H as -> _. rewrite E in P. discriminate.
Qed.

Lemma take_app (u v : string) : take (String.length u) (u ++ v) = u.
Proof. induction u; simpl; [destruct v; reflexivity | congruence]. Qed.

Lemma consumed_app (u v : string) : consumed (u ++ v) v = u.
Proof.
  unfold consumed. rewrite append_length.
  replace (String.length u + String.length v - String.length v)%nat
    with (String.length u) by lia.
  apply take_app.
Qed.

Lemma star_sound {A : Type} (p : ascii -> bool) (s : string)
      (k : string -> option A) (x : A) :
  star p s k = Some x ->
  exists u v, s = u ++ v /\ all p u = true /\ k v = Some x.
Proof.
  induction s as [|c s IH]; simpl.
  - intros H. exists "", "". auto.
  - destruct (p c) eqn:E.
    + destruct (star p s k) eqn:S1.
      * intros [= ->]. destruct (IH eq_refl) as (u & v & -> & P & K).
        exists (String c u), v. simpl. rewrite E. auto.
      * intros H. exists "", (String c s). auto.
    + intros H. exists "", (String c s). auto.
Qed.

Lemma star_complete {A : Type} (p : ascii -> bool) (u v : string)
      (k : string -> option A) :
  all p u = true -> k v <> None -> star p (u ++ v) k <> None.
Proof.
  intros P K. induction u as [|c u IH]; simpl in *.
  - destruct v as [|d v]; simpl; auto.
    destruct (p d); auto. destruct (star p v k); [discriminate | auto].
  - apply andb_true_iff in P as [-> P].
    destruct (star p (u ++ v) k) eqn:E; [discriminate|].
    exfalso. apply (IH P). reflexivity.
Qed.

(** Whatever the matcher returns comes from a derivation. *)
Lemma run_sound {A : Type} (r : regex) :
  forall (s : string) (cap : option string)
         (k : string -> option string -> option A) (x : A),
    run r s cap k = Some x ->
    exists u v cap', s = u ++ v /\ derives r u cap cap' /\ k v cap' = Some x.
Proof.
  induction r as [t|p n|p|r1 IH1 r2 IH2|r1 IH1|r1 IH1 r2 IH2|r1 IH1];
    intros s cap k x; simpl.
  - destruct (strip_prefix t s) as [s'|] eqn:E; [|discriminate].
    apply strip_prefix_spec in E. intros K.
    exists t, s', cap. repeat split; auto. constructor.
  - destruct (strip_class p n s) as [s'|] eqn:E; [|discriminate].
    apply strip_class_spec in E as (u & -> & L & P). intros K.
    exists u, s', cap. repeat split; auto. constructor; auto.
  - intros H. apply star_sound in H as (u & v & -> & P & K).
    exists u, v, cap. repeat split; auto. constructor; auto.
  - destruct (run r1 s cap k) eqn:E.
    + intros [= ->]. destruct (IH1 _ _ _ _ E) as (u & v & c' & -> & D & K).
      exists u, v, c'. repeat split; auto. apply derives_AltL; auto.
    + intros H. destruct (IH2 _ _ _ _ H) as (u & v & c' & -> & D & K).
      exists u, v, c'. repeat split; auto. apply derives_AltR; auto.
  - destruct (run r1 s cap k) eqn:E.
    + intros [= ->]. destruct (IH1 _ _ _ _ E) as (u & v & c' & -> & D & K).
      exists u, v, c'. repeat split; auto. apply derives_OptSome; auto.
    + intros K. exists "", s, cap. repeat split; auto. apply derives_OptNone.
  - intros H. destruct (IH1 _ _ _ _ H) as (u & v & c' & -> & D & K).
    destruct (IH2 _ _ _ _ K) as (u2 & v2 & c2 & -> & D2 & K2).
    exists (u ++ u2), v2, c2. rewrite append_assoc. repeat split; auto.
    econstructor; eauto.
  - intros H. destruct (IH1 _ _ _ _ H) as (u & v & c' & -> & D & K).
    rewrite consumed_app in K.
    exists u, v, (Some u). repeat split; auto. econstructor; eauto.
Qed.

Lemma derives_lang (r : regex) (u : string) (c c' : option string) :
  derives r u c c' -> lang r u.
Proof.
  induction 1;
    [ apply lang_Lit | apply lang_Class | apply lang_Star | apply lang_AltL
    | apply lang_AltR | apply lang_OptSome | apply lang_OptNone | apply lang_Seq
    | apply lang_Group ]; auto.
Qed.

(** A word of the pattern at the head of the input is found, whatever the
    priorities, when the continuation accepts what follows it. *)
Lemma run_complete {A : Type} (r : regex) (u : string) :
  lang r u ->
  forall (v : string) (cap : option string)
         (k : string -> option string -> option A),
    (forall cap', k v cap' <> None) -> run r (u ++ v) cap k <> None.
Proof.
  induction 1 as [t|p n u L P|p u P|r1 r2 u _ IH|r1 r2 u _ IH|r1 u _ IH|r1
                  |r1 r2 u1 u2 _ IH1 _ IH2|r1 u _ IH];
    intros v cap k K; simpl.
  - assert (E : strip_prefix t (t ++ v) = Some v) by (apply strip_prefix_spec; auto).
    rewrite E. apply K.
  - assert (E : strip_class p n (u ++ v) = Some v)
      by (apply strip_class_spec; exists u; auto).
    rewrite E. apply K.
  - apply star_complete; auto.
  - specialize (IH v cap k K). destruct (run r1 (u ++ v) cap k); [discriminate | auto].
  - destruct (run r1 (u ++ v) cap k); [discriminate | auto].
  - specialize (IH v cap k K). destruct (run r1 (u ++ v) cap k); [discriminate | auto].
  - destruct (run r1 v cap k); [discriminate | apply K].
  - rewrite append_assoc. apply IH1. intros cap'. apply IH2. auto.
  - apply IH. intros cap'. apply K.
Qed.

Lemma match_here_sound (r : regex) (s : string) (m : result) :
  match_here r s = Some m ->
  exists post, s = m0 m ++ post /\ derives r (m0 m) None (m1 m).
Proof.
  unfold match_here. intros H.
  apply run_sound in H as (u & v & c' & -> & D & K).
  rewrite consumed_app in K. injection K as <-. simpl. eauto.
Qed.

Lemma match_here_complete (r : regex) (u post : string) :
  lang r u -> match_here r (u ++ post) <> None.
Proof.
  intros L. unfold match_here. apply run_complete; auto. discriminate.
Qed.

Lemma occurs_tail (r : regex) (c : ascii) (s : string) (n : nat) (u : string) :
  occurs r (String c s) (S n) u <-> occurs r s n u.
Proof.
  unfold occurs. split.
  - intros (pre & post & H & L & W). destruct pre as [|d pre]; [discriminate|].
    simpl in *. injection H as -> ->. injection L as L. eauto.
  - intros (pre & post & -> & L & W). exists (String c pre), post.
    simpl. auto.
Qed.

(** A search returns a word of the pattern at its leftmost occurrence. *)
Lemma exec_sound (r : regex) (s : string) (m : result) :
  exec r s = Some m ->
  exists n,
    occurs r s n (m0 m)
    /\ (exists pre post, s = pre ++ m0 m ++ post /\ String.length pre = n
                         /\ derives r (m0 m) None (m1 m))
    /\ (forall n' u', occurs r s n' u' -> (n <= n')%nat).
Proof.
  induction s as [|c s IH]; cbn [exec].
  - destruct (match_here r "") as [m'|] eqn:E; [|discriminate].
    intros [= ->]. apply match_here_sound in E as (post & E & D).
    exists 0%nat. repeat split.
    + exists "", post. repeat split; auto. eapply derives_lang; eauto.
    + exists "", post. auto.
    + intros; lia.
  - destruct (match_here r (String c s)) as [m'|] eqn:E.
    + intros [= ->]. apply match_here_sound in E as (post & E & D).
      exists 0%nat. repeat split.
      * exists "", post. repeat split; auto. eapply derives_lang; eauto.
      * exists "", post. auto.
      * intros; lia.
    + intros H. destruct (IH H) as (n & O & (pre & post & -> & L & D) & Min).
      exists (S n). repeat split.
      * apply occurs_tail; auto.
      * exists (String c pre), post. simpl. auto.
      * intros [|n'] u' O'.
        -- exfalso. destruct O' as (pre' & post' & H' & L' & W).
           destruct pre'; [|discriminate]. simpl in H'.
           apply (match_here_complete r u' post' W). rewrite <- H'. exact E.
        -- apply occurs_tail in O'. apply Min in O'. lia.
Qed.

(** A search fails only when no word of the pattern occurs in the input. *)
Lemma exec_none (r : regex) (s : string) :
  exec r s = None -> forall n u, ~ occurs r s n u.
Proof.
  induction s as [|c s IH]; cbn [exec].
  - destruct (match_here r "") eqn:E; [discriminate|]. intros _ n u O.
    destruct O as (pre & post & H & L & W).
    symmetry in H. apply append_eq_nil in H as (-> & H).
    apply (match_here_complete r u post W). rewrite H. exact E.
  - destruct (match_here r (String c s)) eqn:E; [discriminate|].
    intros H [|n] u O.
    + destruct O as (pre & post & H' & L & W).
      destruct pre; [|discriminate]. simpl in H'.
      apply (match_here_complete r u post W). rewrite <- H'. exact E.
    + apply occurs_tail in O. eapply IH; eauto.
Qed.

Lemma exec_some (r : regex) (s : string) (n : nat) (u : string) :
  occurs r s n u -> exec r s <> None.
Proof. intros O E. eapply exec_none; eauto. Qed.

(** The loop over the patterns stops at the first one that has a match. *)
Lemma first_match_spec {A : Type} (patterns : list regex) (s : string)
      (f : result -> A) (otherwise : A) :
  (exists i pattern m,
      nth_error patterns i = Some pattern
      /\ (forall j p, (j < i)%nat -> nth_error patterns j = Some p -> exec p s = None)
      /\ exec pattern s = Some m
      /\ first_match patterns s f otherwise = f m)
  \/ ((forall p, In p patterns -> exec p s = None)
      /\ first_match patterns s f otherwise = otherwise).
Proof.
  induction patterns as [|p patterns IH]; simpl.
  - right. split; [contradiction | reflexivity].
  - destruct (exec p s) as [m|] eqn:E.
    + left. exists 0%nat, p, m. repeat split; auto. intros; lia.
    + destruct IH as [(i & q & m & N & Before & M & R) | (None' & R)].
      * left. exists (S i), q, m. repeat split; auto.
        intros [|j] p' Lt Hj; simpl in Hj; [congruence|].
        apply (Before j); [lia | auto].
      * right. split; auto. intros q [<- | I]; auto.
Qed.

(** Inversion of the derivations of a pattern that is known. *)
Ltac invert_derives :=
  repeat match goal with
    | H : derives (Seq _ _) _ _ _ |- _ => inversion H; subst; clear H
    | H : derives (Alt _ _) _ _ _ |- _ => inversion H; subst; clear H
    | H : derives (Opt _) _ _ _ |- _ => inversion H; subst; clear H
    | H : derives (Group _) _ _ _ |- _ => inversion H; subst; clear H
    | H : derives (Lit _) _ _ _ |- _ => inversion H; subst; clear H
    | H : derives (Class _ _) _ _ _ |- _ => inversion H; subst; clear H
    | H : derives (Star _) _ _ _ |- _ => inversion H; subst; clear H
    end.

Lemma is_video_id_intro (u : string) :
  String.length u = 11%nat -> all id_char u = true -> is_video_id u = true.
Proof. unfold is_video_id. intros -> ->. reflexivity. Qed.

Lemma is_video_id_elim (u : string) :
  is_video_id u = true -> String.length u = 11%nat /\ all id_char u = true.
Proof.
  unfold is_video_id. intros H. apply andb_true_iff in H as [L P].
  apply Nat.eqb_eq in L. auto.
Qed.

Lemma is_video_id_long (u : string) :
  (11 < String.length u)%nat -> is_video_id u = false.
Proof.
  unfold is_video_id. intros L.
  destruct (Nat.eqb_spec (String.length u) 11); [lia | reflexivity].
Qed.

Lemma substring_here (q post : string) : substring q (q ++ post).
Proof. exists "", post. reflexivity. Qed.

Lemma substring_skip (q a b : string) : substring q b -> substring q (a ++ b).
Proof.
  intros (pre & post & ->). exists (a ++ pre), post. rewrite append_assoc. reflexivity.
Qed.

(** A match of a URL pattern is a URL around an identifier. *)
Lemma urlPatterns_capture (pattern : regex) (span : string) (c : option string) :
  In pattern urlPatterns -> derives pattern span None c ->
  exists id, c = Some id /\ is_video_id id = true /\ substring id span
             /\ is_video_id span = false.
Proof.
  intros [<- | [<- | [<- | []]]] D; invert_derives;
    match goal with
    | L : String.length ?u = 11%nat |- exists id, Some ?u = Some id /\ _ =>
        exists u; split; [reflexivity|]; split; [apply is_video_id_intro; auto|]
    end;
    (split;
     [ repeat first [apply substring_here | apply substring_skip]
     | apply is_video_id_long; repeat rewrite append_length; simpl;
       repeat rewrite append_length; simpl; lia ]).
Qed.

(* ================================================================== *)
(** ** The reference resolver: extracting the URL of a command *)

(** C6.  For every text, [extractUrlFromCommand] tries the URL patterns in
    priority order.  When it returns a span, some pattern has a word in the
    text while no pattern before it has any, the span is a word of that
    pattern, it occurs in the text, and no word of the pattern occurs
    further left; the span is the URL around an identifier, never the bare
    identifier.  When it returns nothing, no pattern has a word anywhere in
    the text. *)
Theorem extractUrlFromCommand_first_pattern_first_occurrence (command : string) :
  match extractUrlFromCommand command with
  | Some span =>
      exists i pattern n,
        nth_error urlPatterns i = Some pattern
        /\ (forall j p, (j < i)%nat -> nth_error urlPatterns j = Some p ->
                        forall n' u, ~ occurs p command n' u)
        /\ occurs pattern command n span
        /\ (forall n' u, occurs pattern command n' u -> (n <= n')%nat)
        /\ (exists id, is_video_id id = true /\ substring id span)
        /\ is_video_id span = false
  | None =>
      forall pattern, In pattern urlPatterns ->
                      forall n u, ~ occurs pattern command n u
  end.
Proof.
  unfold extractUrlFromCommand.
  destruct (first_match_spec urlPatterns command (fun m => Some (m0 m)) None)
    as [(i & pattern & m & N & Before & E & ->) | (Nothing & ->)].
  - apply exec_sound in E as (n & O & (pre & post & _ & _ & D) & Min).
    exists i, pattern, n. repeat split; auto.
    + intros j p Lt Hj. apply exec_none. eapply Before; eauto.
    + apply urlPatterns_capture in D as (id & _ & V & Sub & _);
        [eauto | eapply nth_error_In; eauto].
    + apply urlPatterns_capture in D as (id & _ & _ & _ & Long);
        [auto | eapply nth_error_In; eauto].
  - intros pattern I. apply exec_none. auto.
Qed.

(* ================================================================== *)
(** ** The reference resolver: extracting the identifier *)

Lemma test_whole_id (s : string) : test_whole (Class id_char 11) s = is_video_id s.
Proof.
  unfold test_whole. cbn [run].
  destruct (strip_class id_char 11 s) as [s'|] eqn:E.
  - apply strip_class_spec in E as (u & -> & L & P).
    destruct (String.eqb_spec s' "") as [->|N].
    + rewrite append_nil_r. symmetry. apply is_video_id_intro; auto.
    + symmetry. apply is_video_id_long. rewrite append_length, L.
      destruct s'; [congruence | simpl; lia].
  - destruct (is_video_id s) eqn:V; auto.
    apply is_video_id_elim in V as [L P].
    assert (X : strip_class id_char 11 s = Some "").
    { apply strip_class_spec. exists s. rewrite append_nil_r. auto. }
    congruence.
Qed.

(** A match of an identifier pattern captures an identifier. *)
Lemma idPatterns_capture (pattern : regex) (u : string) (c : option string) :
  In pattern idPatterns -> derives pattern u None c ->
  exists id, c = Some id /\ is_video_id id = true.
Proof.
  intros [<- | [<- | []]] D; unfold idPattern1, idPattern2 in D; invert_derives;
    match goal with
    | L : String.length ?u = 11%nat |- exists id, Some ?u = Some id /\ _ =>
        exists u; split; [reflexivity | apply is_video_id_intro; auto]
    end.
Qed.

Lemma extractVideoId_valid (input id : string) :
  extractVideoId input = Some id -> is_video_id id = true.
Proof.
  unfold extractVideoId.
  destruct (first_match_spec idPatterns input (fun m => m1 m)
              (if test_whole (Class id_char 11) input then Some input else None))
    as [(i & pattern & m & N & _ & E & ->) | (_ & ->)].
  - apply exec_sound in E as (n & _ & (pre & post & _ & _ & D) & _).
    apply idPatterns_capture in D as (id' & -> & V); [|eapply nth_error_In; eauto].
    congruence.
  - rewrite test_whole_id. destruct (is_video_id input) eqn:V; congruence.
Qed.

Lemma video_id_truthy (id : string) : is_video_id id = true -> truthy id = true.
Proof. destruct id; [discriminate | reflexivity]. Qed.

(** A search that fails before an offset and succeeds there. *)
Lemma exec_at (r : regex) (pre s : string) (m : result) :
  match_here r s = Some m ->
  (forall p1 p2, pre = p1 ++ p2 -> p2 <> "" -> match_here r (p2 ++ s) = None) ->
  exec r (pre ++ s) = Some m.
Proof.
  intros M. induction pre as [|c pre IH]; intros Before; simpl.
  - destruct s; cbn [exec]; rewrite M; reflexivity.
  - cbn [exec].
    assert (B : match_here r (String c pre ++ s) = None)
      by (apply (Before "" (String c pre)); [reflexivity | discriminate]).
    simpl in B. rewrite B.
    apply IH. intros p1 p2 -> N. apply (Before (String c p1) p2); auto.
Qed.

(** The longest run of a greedy iteration wins when no longer one does. *)
Lemma star_last {A : Type} (p : ascii -> bool) (u v : string)
      (k : string -> option A) (x : A) :
  all p u = true -> k v = Some x ->
  (forall w v', v = w ++ v' -> w <> "" -> all p w = true -> k v' = None) ->
  star p (u ++ v) k = Some x.
Proof.
  intros P K Later. induction u as [|c u IH]; simpl in *.
  - destruct v as [|d v]; simpl; auto.
    destruct (p d) eqn:E; auto.
    destruct (star p v k) as [y|] eqn:S1; auto.
    apply star_sound in S1 as (w & v' & -> & Pw & Kv).
    rewrite (Later (String d w) v') in Kv; [discriminate|reflexivity|discriminate|].
    simpl. rewrite E. auto.
  - apply andb_true_iff in P as [-> P]. rewrite (IH P). reflexivity.
Qed.

Lemma strip_id (id rest : string) :
  is_video_id id = true -> strip_class id_char 11 (id ++ rest) = Some rest.
Proof.
  intros V. apply is_video_id_elim in V as [L P].
  apply strip_class_spec. exists id. auto.
Qed.

(** The first pattern at one of its three beginnings. *)
Lemma idPattern1_here (shape id rest : string) :
  In shape video_shapes -> is_video_id id = true ->
  match_here idPattern1 (shape ++ id ++ rest)
  = Some {| m0 := shape ++ id; m1 := Some id |}.
Proof.
  intros I V.
  pose proof (consumed_app (shape ++ id) rest) as C0.
  pose proof (consumed_app id rest) as C1.
  pose proof (strip_id id rest V) as E.
  destruct I as [<- | [<- | [<- | []]]];
    unfold match_here, idPattern1; cbn -[strip_class consumed];
    rewrite E; cbn -[consumed] in *; rewrite C0, C1; reflexivity.
Qed.

Lemma shape_occurs (input : string) (n : nat) (id : string) :
  shape_at input n id -> exists u, occurs idPattern1 input n u.
Proof.
  intros (pre & shape & rest & -> & L & I & V).
  exists (shape ++ id), pre, rest. rewrite append_assoc. repeat split; auto.
  apply is_video_id_elim in V as [Len P].
  unfold idPattern1. apply lang_Seq.
  - destruct I as [<- | [<- | [<- | []]]].
    + apply lang_AltL, lang_Lit.
    + apply lang_AltR, lang_AltL, lang_Lit.
    + apply lang_AltR, lang_AltR, lang_Lit.
  - apply lang_Group, lang_Class; auto.
Qed.

Lemma occurs_shape (input : string) (n : nat) (u : string) :
  occurs idPattern1 input n u -> exists id, shape_at input n id.
Proof.
  intros (pre & post & -> & L & W). unfold idPattern1 in W.
  inversion W as [| | | | | | |? ? shape id W1 W2|]; subst.
  inversion W2 as [| | | | | | | |? ? W3]; subst.
  inversion W3; subst.
  exists id, pre, shape, post. rewrite append_assoc. repeat split; auto.
  - inversion W1 as [| | |? ? ? Wa|? ? ? Wb| | | |]; subst.
    + inversion Wa; subst. simpl; auto.
    + inversion Wb as [| | |? ? ? Wc|? ? ? Wd| | | |]; subst.
      * inversion Wc; subst. simpl; auto.
      * inversion Wd; subst. simpl; auto.
  - apply is_video_id_intro; auto.
Qed.

(** The leftmost of the three beginnings that an identifier follows gives
    the result, whatever comes after the identifier. *)
Lemma extractVideoId_leftmost_shape (input : string) (n : nat) (id : string) :
  shape_at input n id ->
  (forall n' id', shape_at input n' id' -> (n <= n')%nat) ->
  extractVideoId input = Some id.
Proof.
  intros (pre & shape & rest & -> & L & I & V) Min.
  unfold extractVideoId, idPatterns. cbn [first_match].
  rewrite (exec_at idPattern1 pre (shape ++ id ++ rest)
             {| m0 := shape ++ id; m1 := Some id |}); [reflexivity | |].
  - apply idPattern1_here; auto.
  - intros p1 p2 -> N.
    destruct (match_here idPattern1 (p2 ++ shape ++ id ++ rest)) as [m|] eqn:E; auto.
    exfalso. apply match_here_sound in E as (post & E & D).
    assert (O : occurs idPattern1 ((p1 ++ p2) ++ shape ++ id ++ rest)
                  (String.length p1) (m0 m)).
    { exists p1, post. rewrite append_assoc, E. repeat split; auto.
      eapply derives_lang; eauto. }
    apply occurs_shape in O as (id' & O). apply Min in O.
    rewrite <- L, append_length in O. destruct p2; [congruence | simpl in O; lia].
Qed.

Lemma no_v_no_later (tail : string) : ~ substring "v=" tail -> ~ later_v tail.
Proof. intros No (w & id & rest & E & _). apply No. exists w, (id ++ rest). exact E. Qed.

(** The second pattern at [youtube.com/watch?]: the iteration stops at the
    last [v=] of the line that an identifier follows. *)
Lemma idPattern2_here (mid id rest : string) :
  all dot mid = true -> is_video_id id = true ->
  ~ later_v (id ++ rest) ->
  match_here idPattern2 ("youtube.com/watch?" ++ mid ++ "v=" ++ id ++ rest)
  = Some {| m0 := "youtube.com/watch?" ++ mid ++ "v=" ++ id; m1 := Some id |}.
Proof.
  intros P V Last.
  unfold match_here, idPattern2. cbn [run].
  assert (E0 : strip_prefix "youtube.com/watch?"
                 ("youtube.com/watch?" ++ mid ++ "v=" ++ id ++ rest)
               = Some (mid ++ "v=" ++ id ++ rest))
    by (apply strip_prefix_spec; reflexivity).
  rewrite E0. apply star_last; auto.
  - assert (E1 : strip_prefix "v=" ("v=" ++ id ++ rest) = Some (id ++ rest))
      by (apply strip_prefix_spec; reflexivity).
    rewrite E1, (strip_id id rest V), consumed_app.
    replace ("youtube.com/watch?" ++ mid ++ "v=" ++ id ++ rest)
      with (("youtube.com/watch?" ++ mid ++ "v=" ++ id) ++ rest)
      by (repeat rewrite append_assoc; reflexivity).
    rewrite consumed_app. reflexivity.
  - intros w v' H N Pw.
    destruct (strip_prefix "v=" v') as [s''|] eqn:E; auto.
    destruct (strip_class id_char 11 s'') as [s2|] eqn:E2; auto.
    exfalso. apply strip_prefix_spec in E as ->.
    apply strip_class_spec in E2 as (u & -> & Lu & Pu).
    destruct w as [|c [|d w]]; [congruence | discriminate |].
    simpl in H. injection H as _ _ H.
    simpl in Pw. apply andb_true_iff in Pw as [_ Pw].
    apply andb_true_iff in Pw as [_ Pw].
    apply Last. exists w, u, s2. split; [exact H|]. split; [exact Pw|].
    apply is_video_id_intro; auto.
Qed.

Lemma no_shape_no_match (input : string) :
  (forall n id, ~ shape_at input n id) -> exec idPattern1 input = None.
Proof.
  intros No. destruct (exec idPattern1 input) as [m|] eqn:E; auto.
  exfalso. apply exec_sound in E as (n & O & _).
  apply occurs_shape in O as (id & O). eapply No; eauto.
Qed.

Lemma idPattern2_word (u : string) :
  lang idPattern2 u -> exists tail, u = "youtube.com/watch?" ++ tail.
Proof.
  unfold idPattern2. intros W.
  inversion W as [| | | | | | |? ? a b Wa Wb|]; subst.
  inversion Wa; subst. eauto.
Qed.

(** Parameters before [v=]: the second pattern gives the identifier when
    no later [v=] of the line has an identifier after it. *)
Lemma extractVideoId_after_parameters (input pre mid id rest : string) :
  input = pre ++ "youtube.com/watch?" ++ mid ++ "v=" ++ id ++ rest ->
  is_video_id id = true ->
  all dot mid = true ->
  (forall n id', ~ shape_at input n id') ->
  (forall pre' post', input = pre' ++ "youtube.com/watch?" ++ post' ->
                      (String.length pre <= String.length pre')%nat) ->
  ~ later_v (id ++ rest) ->
  extractVideoId input = Some id.
Proof.
  intros -> V P No First Last.
  unfold extractVideoId, idPatterns. cbn [first_match].
  rewrite (no_shape_no_match _ No).
  rewrite (exec_at idPattern2 pre ("youtube.com/watch?" ++ mid ++ "v=" ++ id ++ rest)
             {| m0 := "youtube.com/watch?" ++ mid ++ "v=" ++ id; m1 := Some id |});
    [reflexivity | |].
  - apply idPattern2_here; auto.
  - intros p1 p2 -> N.
    match goal with |- ?x = None => destruct x as [m|] eqn:E; auto end.
    exfalso. apply match_here_sound in E as (post & E & D).
    apply derives_lang, idPattern2_word in D as (tail & D).
    specialize (First p1 (tail ++ post)).
    rewrite append_length in First.
    assert (String.length p1 + String.length p2 <= String.length p1)%nat.
    { apply First. rewrite append_assoc, E, D.
      repeat rewrite append_assoc. reflexivity. }
    destruct p2; [congruence | simpl in *; lia].
Qed.

Lemma all_app_mid (p : ascii -> bool) (a b c : string) :
  all p (a ++ b ++ c) = true -> all p b = true.
Proof.
  rewrite !all_app. intros H.
  apply andb_true_iff in H as [_ H]. apply andb_true_iff in H as [H _]. auto.
Qed.

(** No pattern has a word inside a string of identifier characters. *)
Lemma id_chars_no_match (input : string) (pattern : regex) :
  all id_char input = true -> In pattern idPatterns -> exec pattern input = None.
Proof.
  intros P I. destruct (exec pattern input) as [[w c]|] eqn:E; auto.
  exfalso. apply exec_sound in E as (n & _ & (pre & post & -> & _ & D) & _).
  apply all_app_mid in P. cbn [m0 m1] in *.
  destruct I as [<- | [<- | []]]; unfold idPattern1, idPattern2 in D;
    invert_derives; rewrite all_app in P;
    apply andb_true_iff in P as [P _]; vm_compute in P; discriminate.
Qed.

Lemma extractVideoId_bare_id (input : string) :
  is_video_id input = true -> extractVideoId input = Some input.
Proof.
  intros V. pose proof (is_video_id_elim _ V) as [_ P].
  unfold extractVideoId, idPatterns. cbn [first_match].
  rewrite !(id_chars_no_match input) by (simpl; auto).
  rewrite test_whole_id, V. reflexivity.
Qed.

Lemma extractVideoId_not_found (input : string) :
  extractVideoId input = None <->
  is_video_id input = false
  /\ (forall pattern, In pattern idPatterns ->
                      forall n u, ~ occurs pattern input n u).
Proof.
  unfold extractVideoId.
  destruct (first_match_spec idPatterns input (fun m => m1 m)
              (if test_whole (Class id_char 11) input then Some input else None))
    as [(i & pattern & m & N & _ & E & ->) | (Nothing & ->)].
  - pose proof (nth_error_In _ _ N) as I.
    pose proof E as E'.
    apply exec_sound in E as (n & O & (pre & post & _ & _ & D) & _).
    apply idPatterns_capture in D as (id' & -> & V); auto.
    split; [discriminate|]. intros (_ & No). exfalso. eapply No; eauto.
  - rewrite test_whole_id. split.
    + destruct (is_video_id input); [discriminate|]. intros _. split; auto.
      intros pattern I. apply exec_none. auto.
    + intros (-> & _). reflexivity.
Qed.

(** C5.  The code departs from the claim on a watch link that has one more
    parameter after the [v] parameter when another one stands before it.
    The link below has the identifier [AAAAAAAAAAA] as its [v] parameter,
    after a time parameter and before a parameter [rev]: [extractVideoId]
    returns the value of [rev] and not the identifier.  For the same link
    with the [v] parameter first, and for the link without [rev], it
    returns the identifier. *)
Theorem extractVideoId_later_parameter_wins :
  "https://www.youtube.com/watch?t=5&v=AAAAAAAAAAA&rev=BBBBBBBBBBB"
  = "https://www." ++ "youtube.com/watch?" ++ "t=5&" ++ "v=" ++ "AAAAAAAAAAA"
    ++ "&rev=BBBBBBBBBBB"
  /\ is_video_id "AAAAAAAAAAA" = true
  /\ extractVideoId "https://www.youtube.com/watch?t=5&v=AAAAAAAAAAA&rev=BBBBBBBBBBB"
     = Some "BBBBBBBBBBB"
  /\ extractVideoId "https://www.youtube.com/watch?t=5&v=AAAAAAAAAAA&rev=BBBBBBBBBBB"
     <> Some "AAAAAAAAAAA"
  /\ extractVideoId "https://www.youtube.com/watch?v=AAAAAAAAAAA&t=5&rev=BBBBBBBBBBB"
     = Some "AAAAAAAAAAA"
  /\ extractVideoId "https://www.youtube.com/watch?t=5&v=AAAAAAAAAAA"
     = Some "AAAAAAAAAAA".
Proof.
  split; [reflexivity|]. split; [reflexivity|]. split; [reflexivity|].
  split; [discriminate|]. split; reflexivity.
Qed.

(** X16.  What [extractVideoId] gives for every input.  An identifier that
    it returns has eleven characters of the identifier alphabet; the
    leftmost occurrence of [youtube.com/watch?v=], [youtu.be/] or
    [youtube.com/embed/] that an identifier follows gives that identifier,
    whatever comes after it; when there is no such occurrence and
    parameters stand between the first [youtube.com/watch?] and [v=ID] on
    one line, [ID] is returned provided no [v=] followed by an identifier
    comes later on that line; a bare identifier is returned as it is; and
    the result is NotFound exactly when the input is not an identifier and
    no pattern has a word in it.  The function is total: it never throws. *)
Theorem extractVideoId_shapes (input : string) :
  (forall id, extractVideoId input = Some id -> is_video_id id = true)
  /\ (forall n id,
        shape_at input n id ->
        (forall n' id', shape_at input n' id' -> (n <= n')%nat) ->
        extractVideoId input = Some id)
  /\ (forall pre mid id rest,
        input = pre ++ "youtube.com/watch?" ++ mid ++ "v=" ++ id ++ rest ->
        is_video_id id = true ->
        all dot mid = true ->
        (forall n id', ~ shape_at input n id') ->
        (forall pre' post', input = pre' ++ "youtube.com/watch?" ++ post' ->
                            (String.length pre <= String.length pre')%nat) ->
        ~ later_v (id ++ rest) ->
        extractVideoId input = Some id)
  /\ (is_video_id input = true -> extractVideoId input = Some input)
  /\ (extractVideoId input = None <->
      is_video_id input = false
      /\ (forall pattern, In pattern idPatterns ->
                          forall n u, ~ occurs pattern input n u)).
Proof.
  split; [|split; [|split; [|split]]].
  - intros id. apply extractVideoId_valid.
  - intros n id. apply extractVideoId_leftmost_shape.
  - intros pre mid id rest. apply extractVideoId_after_parameters.
  - apply extractVideoId_bare_id.
  - apply extractVideoId_not_found.
Qed.

(** The theorem at a short link with a time parameter, at a watch link
    whose [v=] comes second, and at one with a later [v=] that no
    identifier follows. *)
Lemma extractVideoId_shapes_witness :
  extractVideoId "youtu.be/P2DfG5JEAmA?t=447s" = Some "P2DfG5JEAmA"
  /\ extractVideoId "youtube.com/watch?t=447s&v=P2DfG5JEAmA&feature=share"
     = Some "P2DfG5JEAmA"
  /\ extractVideoId "youtube.com/watch?t=5&v=P2DfG5JEAmA&v=x" = Some "P2DfG5JEAmA".
Proof.
  split; [|split].
  - apply (proj1 (proj2 (extractVideoId_shapes "youtu.be/P2DfG5JEAmA?t=447s")) 0%nat).
    + exists "", "youtu.be/", "?t=447s". simpl. repeat split; auto.
    + intros; lia.
  - apply (proj1 (proj2 (proj2
             (extractVideoId_shapes
                "youtube.com/watch?t=447s&v=P2DfG5JEAmA&feature=share")))
             "" "t=447s&" "P2DfG5JEAmA" "&feature=share").
    + reflexivity.
    + reflexivity.
    + reflexivity.
    + intros n id' O. apply shape_occurs in O as (u & O).
      apply exec_some in O. apply O. reflexivity.
    + intros; simpl; lia.
    + apply no_v_no_later. intros Sub. apply includes_substring in Sub. discriminate.
  - apply (proj1 (proj2 (proj2
             (extractVideoId_shapes "youtube.com/watch?t=5&v=P2DfG5JEAmA&v=x")))
             "" "t=5&" "P2DfG5JEAmA" "&v=x").
    + reflexivity.
    + reflexivity.
    + reflexivity.
    + intros n id' O. apply shape_occurs in O as (u & O).
      apply exec_some in O. apply O. reflexivity.
    + intros; simpl; lia.
    + intros (w & id' & rest' & E & _ & V).
      apply is_video_id_elim in V as [L _].
      destruct w as [|a [|b [|c w]]]; try discriminate E.
      apply (f_equal String.length) in E.
      simpl in E. rewrite append_length in E. simpl in E.
      rewrite append_length, L in E. lia.
Defined.

(* ================================================================== *)
(** ** The search engine: one transcript *)

Lemma window_nth_error {A : Type} (l : list A) (lo hi k : nat) :
  (hi <= List.length l)%nat ->
  nth_error (window l lo hi) k
  = if (k <? hi - lo)%nat then nth_error l (lo + k) else None.
Proof.
  intros Hhi. unfold window.
  destruct (Nat.ltb_spec k (hi - lo)) as [Lt | Ge].
  - rewrite nth_error_firstn. destruct (Nat.ltb_spec k (hi - lo)); [|lia].
    apply nth_error_skipn.
  - apply nth_error_None. rewrite length_firstn. lia.
Qed.

(** In range, [slice] is the window between its two bounds. *)
Lemma slice_window {A : Type} (l : list A) (start stop : Z) :
  (0 <= start)%Z -> (0 <= stop)%Z ->
  (start <= Z.of_nat (List.length l))%Z -> (stop <= Z.of_nat (List.length l))%Z ->
  JsArray.slice l start stop = window l (Z.to_nat start) (Z.to_nat stop).
Proof.
  intros H1 H2 H3 H4. unfold JsArray.slice, JsArray.clamp, window.
  destruct (Z.ltb_spec start 0); [lia|].
  destruct (Z.ltb_spec stop 0); [lia|].
  rewrite !Z.min_l by lia. rewrite Z2Nat.inj_sub by lia. reflexivity.
Qed.

Section Scan.
Variables (transcript : list Entry.t) (queryLower : string) (contextWords : Z).

Let hit (e : Entry.t) : bool := includes (toLowerCase (Entry.text e)) queryLower.

Lemma scan_count (entries : list Entry.t) :
  forall start i,
    matches_at (scan transcript queryLower contextWords start entries) i
    = match nth_error entries (i - start) with
      | Some e => if (start <=? i)%nat && hit e then 1%nat else 0%nat
      | None => 0%nat
      end.
Proof.
  unfold matches_at.
  induction entries as [|e es IH]; intros start i; cbn [scan].
  - destruct (i - start)%nat; reflexivity.
  - rewrite filter_app, length_app, IH. fold (hit e).
    destruct (Nat.compare_spec start i) as [-> | Lt | Gt].
    + rewrite Nat.sub_diag. cbn [nth_error].
      replace (i - S i)%nat with 0%nat by lia.
      rewrite Nat.leb_refl.
      destruct (Nat.leb_spec (S i) i); [lia|]. simpl.
      destruct (hit e); simpl; [rewrite Nat.eqb_refl|]; simpl;
        destruct es; reflexivity.
    + replace (i - start)%nat with (S (i - S start)) by lia. cbn [nth_error].
      destruct (Nat.leb_spec start i); [|lia].
      destruct (Nat.leb_spec (S start) i); [|lia].
      destruct (hit e); simpl; auto.
      destruct (Nat.eqb_spec start i); [lia | reflexivity].
    + replace (i - start)%nat with 0%nat by lia.
      replace (i - S start)%nat with 0%nat by lia. cbn [nth_error].
      destruct (Nat.leb_spec start i); [lia|].
      destruct (Nat.leb_spec (S start) i); [lia|]. simpl.
      destruct (hit e); simpl.
      * destruct (Nat.eqb_spec start i); [lia|]. simpl. destruct es; reflexivity.
      * destruct es; reflexivity.
Qed.

Lemma scan_fields (entries : list Entry.t) :
  forall start,
    Forall (fun r =>
              exists e,
                nth_error entries (Match.matchIndex r - start) = Some e
                /\ (start <= Match.matchIndex r)%nat
                /\ hit e = true
                /\ Match.text r = Entry.text e
                /\ Match.timestamp r = Entry.start e
                /\ Match.duration r = JsNumber.or_zero (Entry.duration e)
                /\ Match.context r
                   = join " "
                       (map Entry.text
                          (JsArray.slice transcript
                             (Z.max 0 (Z.of_nat (Match.matchIndex r) - contextWords))
                             (Z.min (Z.of_nat (List.length transcript))
                                (Z.of_nat (Match.matchIndex r) + contextWords + 1)))))
           (scan transcript queryLower contextWords start entries).
Proof.
  induction entries as [|e es IH]; intros start; cbn [scan].
  - constructor.
  - apply Forall_app. split.
    + fold (hit e). destruct (hit e) eqn:H; constructor; [|constructor].
      exists e. cbn. rewrite Nat.sub_diag. repeat split; auto.
    + eapply Forall_impl; [|apply (IH (S start))].
      intros r (e' & N & L & Rest). exists e'. split; [|split; [lia | exact Rest]].
      replace (Match.matchIndex r - start)%nat
        with (S (Match.matchIndex r - S start)) by lia.
      exact N.
Qed.

Lemma scan_increasing (entries : list Entry.t) :
  forall start,
    StronglySorted lt
      (map Match.matchIndex (scan transcript queryLower contextWords start entries))
    /\ Forall (fun i => (start <= i)%nat)
         (map Match.matchIndex (scan transcript queryLower contextWords start entries)).
Proof.
  induction entries as [|e es IH]; intros start; cbn [scan].
  - split; constructor.
  - destruct (IH (S start)) as [S1 F1].
    assert (F2 : Forall (fun i => (start < i)%nat)
                   (map Match.matchIndex
                      (scan transcript queryLower contextWords (S start) es)))
      by (eapply Forall_impl; [|exact F1]; simpl; intros; lia).
    destruct (includes _ _); simpl.
    + split; constructor; auto.
      eapply Forall_impl; [|exact F2]; simpl; intros; lia.
    + split; auto. eapply Forall_impl; [|exact F2]; simpl; intros; lia.
Qed.

End Scan.

(** C2.  For a transcript of length [n], a query and a window
    [contextWords >= 0], [searchInTranscript] returns, in transcript order,
    exactly one match for each entry whose lower-cased text contains the
    lower-cased query and none for the others; the [matchIndex] of a match
    is the position [i] of its entry, its text and time are the entry's,
    and its context is the texts of the entries at the positions
    [max(0, i - contextWords) <= j < min(n, i + contextWords + 1)], joined by
    one space. *)
Theorem searchInTranscript_one_match_per_entry
        (transcript : list Entry.t) (query : string) (contextWords : Z) :
  (0 <= contextWords)%Z ->
  let n := List.length transcript in
  let results := searchInTranscript transcript query contextWords in
  (forall i e,
      nth_error transcript i = Some e ->
      (substring (toLowerCase query) (toLowerCase (Entry.text e)) ->
       matches_at results i = 1%nat)
      /\ (~ substring (toLowerCase query) (toLowerCase (Entry.text e)) ->
          matches_at results i = 0%nat))
  /\ (forall i, nth_error transcript i = None -> matches_at results i = 0%nat)
  /\ StronglySorted lt (map Match.matchIndex results)
  /\ Forall (fun r =>
               let i := Match.matchIndex r in
               let lo := Z.to_nat (Z.max 0 (Z.of_nat i - contextWords)) in
               let hi := Z.to_nat (Z.min (Z.of_nat n) (Z.of_nat i + contextWords + 1)) in
               exists e,
                 nth_error transcript i = Some e
                 /\ Match.text r = Entry.text e
                 /\ Match.timestamp r = Entry.start e
                 /\ Match.context r
                    = join " " (map Entry.text (window transcript lo hi)))
            results.
Proof.
  intros Hcw n results. unfold results, searchInTranscript.
  split; [|split; [|split]].
  - intros i e N. rewrite scan_count, Nat.sub_0_r, N. simpl.
    rewrite <- includes_substring.
    destruct (includes (toLowerCase (Entry.text e)) (toLowerCase query));
      split; congruence.
  - intros i N. rewrite scan_count, Nat.sub_0_r, N. reflexivity.
  - apply scan_increasing.
  - eapply Forall_impl; [|apply scan_fields].
    intros r (e & N & _ & _ & T & S & _ & C). rewrite Nat.sub_0_r in N.
    exists e. repeat split; auto.
    rewrite C. f_equal. f_equal.
    assert (Match.matchIndex r < n)%nat by (apply nth_error_Some; congruence).
    apply slice_window; fold n; lia.
Qed.

(** The theorem on the transcript of three entries of the specification,
    with a window of one entry: every entry contains [a]. *)
Lemma searchInTranscript_witness :
  (0 <= 1)%Z
  /\ map (fun r => (Match.matchIndex r, Match.context r))
       (searchInTranscript
          [ {| Entry.text := "a cat"; Entry.start := 0; Entry.duration := 1 |};
            {| Entry.text := "ran fast"; Entry.start := 1; Entry.duration := 1 |};
            {| Entry.text := "A dog"; Entry.start := 2; Entry.duration := 1 |} ]
          "a" 1)
     = [ (0%nat, "a cat ran fast"); (1%nat, "a cat ran fast A dog");
         (2%nat, "ran fast A dog") ]
  /\ StronglySorted lt
       (map Match.matchIndex
          (searchInTranscript
             [ {| Entry.text := "a cat"; Entry.start := 0; Entry.duration := 1 |};
               {| Entry.text := "ran fast"; Entry.start := 1; Entry.duration := 1 |};
               {| Entry.text := "A dog"; Entry.start := 2; Entry.duration := 1 |} ]
             "a" 1)).
Proof.
  split; [lia|]. split; [reflexivity|].
  apply (searchInTranscript_one_match_per_entry
           [ {| Entry.text := "a cat"; Entry.start := 0; Entry.duration := 1 |};
             {| Entry.text := "ran fast"; Entry.start := 1; Entry.duration := 1 |};
             {| Entry.text := "A dog"; Entry.start := 2; Entry.duration := 1 |} ]
           "a" 1).
  lia.
Defined.

(* ================================================================== *)
(** ** The store and its invariant *)

Lemma store_ok_elim (m : JsMap.t Video.t) :
  store_ok m = true ->
  distinct (JsMap.keys m) = true
  /\ forall k v, JsMap.get k m = Some v -> is_video_id k = true /\ Video.id v = k.
Proof.
  unfold store_ok. intros H. apply andb_true_iff in H as [D F]. split; auto.
  intros k v G. apply get_In in G.
  rewrite forallb_forall in F. apply F in G. simpl in G.
  apply andb_true_iff in G as [V I]. apply String.eqb_eq in I. auto.
Qed.

Lemma distinct_snoc (k : string) (l : list string) :
  distinct l = true -> existsb (String.eqb k) l = false ->
  distinct (l ++ [k])%list = true.
Proof.
  induction l as [|x l IH]; simpl; auto.
  intros D E. apply andb_true_iff in D as [D1 D2].
  apply orb_false_iff in E as [E1 E2].
  rewrite IH by auto. rewrite andb_true_r.
  rewrite existsb_app. simpl. rewrite orb_false_r.
  apply negb_true_iff in D1. rewrite D1. simpl.
  rewrite String.eqb_sym, E1. reflexivity.
Qed.

Lemma store_ok_set (m : JsMap.t Video.t) (k : string) (v : Video.t) :
  store_ok m = true -> JsMap.get k m = None ->
  is_video_id k = true -> Video.id v = k ->
  store_ok (JsMap.set k v m) = true.
Proof.
  unfold store_ok. intros H G V I. apply andb_true_iff in H as [D F].
  rewrite (set_absent k v m G). unfold JsMap.keys. rewrite map_app, forallb_app.
  simpl. rewrite V, I, String.eqb_refl, F. simpl. rewrite andb_true_r.
  apply distinct_snoc; auto.
  fold (JsMap.keys m). rewrite existsb_eqb_keys. apply has_false_get. auto.
Qed.

Lemma store_ok_filter (f : string * Video.t -> bool) (m : JsMap.t Video.t) :
  store_ok m = true -> store_ok (filter f m) = true.
Proof.
  unfold store_ok. intros H. apply andb_true_iff in H as [D F].
  rewrite (distinct_filter f m D). simpl.
  rewrite forallb_forall in *. intros kv I. apply filter_In in I as [I _]. auto.
Qed.

Lemma store_ok_delete (k : string) (m : JsMap.t Video.t) :
  store_ok m = true -> store_ok (JsMap.delete k m) = true.
Proof.
  intros H. rewrite delete_filter by (apply store_ok_elim; auto).
  apply store_ok_filter. auto.
Qed.

Section ServerFacts.
Variable localeCompare : string -> string -> Z.
Variable fetchTranscript :
  list (string * string) -> string -> string -> string + list Caption.t.

(** Adding a video whose identifier is in the store changes nothing. *)
Lemma add_present (args : add_args) (id : string) (st : server) :
  extractVideoId (url args) = Some id ->
  JsMap.has id (videos st) = true ->
  addYouTubeVideo fetchTranscript args st = (AlreadyLoaded id, st).
Proof.
  intros E H. unfold addYouTubeVideo. rewrite E.
  rewrite (video_id_truthy id (extractVideoId_valid _ _ E)). simpl.
  unfold bind, get_videos, ret. rewrite H. reflexivity.
Qed.

(** Adding a video whose identifier is new, when the provider answers. *)
Lemma add_absent (args : add_args) (id : string) (st : server)
      (captions : list Caption.t) :
  extractVideoId (url args) = Some id ->
  JsMap.has id (videos st) = false ->
  fetchTranscript (fetched st) id (default "en" (language args)) = inr captions ->
  let transcript :=
    map (fun c => {| Entry.text := Caption.text c;
                     Entry.start := Caption.offset c / 1000;
                     Entry.duration := Caption.duration c / 1000 |}) captions in
  let totalDuration := totalDurationOf transcript in
  let lang := default "en" (language args) in
  let videoUrl := "https://www.youtube.com/watch?v=" ++ id in
  addYouTubeVideo fetchTranscript args st
  = (Loaded id videoUrl (List.length transcript) lang totalDuration,
     {| videos :=
          JsMap.set id
            {| Video.id := id;
               Video.url := videoUrl;
               Video.title := "Video " ++ id;
               Video.language := lang;
               Video.transcript := transcript;
               Video.transcriptLength := List.length transcript;
               Video.totalDuration := totalDuration |}
            (videos st);
        fetched := (fetched st ++ [(id, lang)])%list |}).
Proof.
  intros E H F. cbv zeta. unfold addYouTubeVideo. rewrite E.
  rewrite (video_id_truthy id (extractVideoId_valid _ _ E)). cbn [negb].
  unfold bind, get_videos, ret, fetch, update_videos. rewrite H.
  cbn [videos fetched]. rewrite F. reflexivity.
Qed.

(** What a call of [addYouTubeVideo] can do to the state. *)
Lemma add_cases (args : add_args) (st : server) :
  let r := addYouTubeVideo fetchTranscript args st in
  snd r = st
  \/ (exists id message,
         fst r = ProviderError id message
         /\ videos (snd r) = videos st)
  \/ (exists id v,
         extractVideoId (url args) = Some id
         /\ JsMap.get id (videos st) = None
         /\ Video.id v = id
         /\ videos (snd r) = JsMap.set id v (videos st)).
Proof.
  cbv zeta. destruct (extractVideoId (url args)) as [id|] eqn:E.
  - destruct (JsMap.has id (videos st)) eqn:H.
    + left. rewrite (add_present args id st E H). reflexivity.
    + destruct (fetchTranscript (fetched st) id (default "en" (language args)))
        as [message | captions] eqn:F.
      * right. left. exists id, message.
        unfold addYouTubeVideo. rewrite E.
        rewrite (video_id_truthy id (extractVideoId_valid _ _ E)). cbn [negb].
        unfold bind, get_videos, ret, fetch. rewrite H. cbn [videos fetched].
        rewrite F. auto.
      * right. right. rewrite (add_absent args id st captions E H F).
        eexists id, _. repeat split; auto.
        apply has_false_get. auto.
  - left. unfold addYouTubeVideo. rewrite E. reflexivity.
Qed.

Lemma add_ok (args : add_args) (st : server) :
  store_ok (videos st) = true ->
  store_ok (videos (snd (addYouTubeVideo fetchTranscript args st))) = true.
Proof.
  intros Ok.
  destruct (add_cases args st) as [-> | [(id & msg & _ & ->) | (id & v & E & G & I & ->)]];
    auto.
  apply store_ok_set; auto. eapply extractVideoId_valid; eauto.
Qed.

(** Every tool call keeps the invariant of the store. *)
Lemma callTool_ok (req : request) (st : server) :
  store_ok (videos st) = true ->
  store_ok (videos (snd (callTool localeCompare fetchTranscript req st))) = true.
Proof.
  intros Ok. destruct req as [args|args|args| |args|args| ]; cbn [callTool].
  - unfold transcribeFromCommand.
    destruct (extractUrlFromCommand (command args)) as [u|]; auto.
    destruct (negb (truthy u)); auto. apply add_ok; auto.
  - apply add_ok; auto.
  - unfold searchTranscripts, bind, get_videos, ret.
    destruct (JsMap.size (videos st) =? 0)%nat; auto.
    destruct (query args) as [q|]; auto.
    destruct (negb (truthy (trim q))); auto.
    destruct (List.length _ =? 0)%nat; auto.
  - unfold listVideos, bind, get_videos, ret.
    destruct (JsMap.size (videos st) =? 0)%nat; auto.
  - unfold getVideoTranscript, bind, get_videos, ret.
    destruct (JsMap.get _ _); auto. destruct (String.eqb _ _); auto.
  - unfold removeVideo, bind, get_videos, ret, update_videos.
    destruct (JsMap.get _ _); auto. cbn. apply store_ok_delete; auto.
  - reflexivity.
Qed.

(** The invariant holds in every state a server reaches. *)
Lemma reachable_ok (reqs : list request) :
  forall st, store_ok (videos st) = true ->
             store_ok (videos (run_calls localeCompare fetchTranscript reqs st)) = true.
Proof.
  induction reqs as [|req reqs IH]; intros st Ok; cbn [run_calls]; auto.
  apply IH, callTool_ok; auto.
Qed.

End ServerFacts.

(** In particular in every state reached from a new server. *)
Lemma reachable_from_initial_ok
      (localeCompare : string -> string -> Z)
      (fetchTranscript : list (string * string) -> string -> string -> string + list Caption.t)
      (reqs : list request) :
  store_ok (videos (run_calls localeCompare fetchTranscript reqs initial)) = true.
Proof. apply reachable_ok. reflexivity. Qed.

(* ================================================================== *)
(** ** The command facade *)

Lemma add_loaded_has
      (fetchTranscript : list (string * string) -> string -> string -> string + list Caption.t)
      (args : add_args) (st st' : server) (id u l : string) (n : nat) (d : Q) :
  addYouTubeVideo fetchTranscript args st = (Loaded id u n l d, st') ->
  JsMap.has id (videos st') = true.
Proof.
  destruct (extractVideoId (url args)) as [id0|] eqn:E.
  - destruct (JsMap.has id0 (videos st)) eqn:H.
    + rewrite (add_present fetchTranscript args id0 st E H). discriminate.
    + destruct (fetchTranscript (fetched st) id0 (default "en" (language args)))
        as [message | captions] eqn:F.
      * unfold addYouTubeVideo. rewrite E.
        rewrite (video_id_truthy id0 (extractVideoId_valid _ _ E)). cbn [negb].
        unfold bind, get_videos, ret, fetch. rewrite H. cbn [videos fetched].
        rewrite F. discriminate.
      * rewrite (add_absent fetchTranscript args id0 st captions E H F).
        intros [= <- _ _ _ _ <-]. cbn [videos].
        apply has_get. eexists. apply get_set_same.
  - unfold addYouTubeVideo. rewrite E. discriminate.
Qed.

(** C3.  [addYouTubeVideo] with a reference that resolves to an identifier
    of the store, in particular a second call after the call that loaded
    it, reports AlreadyLoaded, which is not an error; the provider is not
    called, the number of records does not change and the stored record is
    the same: the state is the one before the call. *)
Theorem addYouTubeVideo_idempotent
        (fetchTranscript : list (string * string) -> string -> string -> string + list Caption.t)
        (args : add_args) (id : string) (st : server) :
  extractVideoId (url args) = Some id ->
  JsMap.has id (videos st) = true
  \/ (exists args0 st0 u n l d,
         addYouTubeVideo fetchTranscript args0 st0 = (Loaded id u n l d, st)) ->
  let r := addYouTubeVideo fetchTranscript args st in
  fst r = AlreadyLoaded id
  /\ is_error (fst r) = false
  /\ fetched (snd r) = fetched st
  /\ JsMap.size (videos (snd r)) = JsMap.size (videos st)
  /\ JsMap.get id (videos (snd r)) = JsMap.get id (videos st)
  /\ snd r = st.
Proof.
  intros E H. cbv zeta.
  assert (P : JsMap.has id (videos st) = true).
  { destruct H as [H | (args0 & st0 & u & n & l & d & H)]; auto.
    eapply add_loaded_has; eauto. }
  rewrite (add_present fetchTranscript args id st E P). repeat split; auto.
Qed.

(** The theorem on the sample server: the short link of a loaded video. *)
Lemma addYouTubeVideo_idempotent_witness :
  extractVideoId "https://youtu.be/P2DfG5JEAmA" = Some "P2DfG5JEAmA"
  /\ JsMap.has "P2DfG5JEAmA" (videos sample_server) = true
  /\ addYouTubeVideo sample_provider
       {| url := "https://youtu.be/P2DfG5JEAmA"; language := None |} sample_server
     = (AlreadyLoaded "P2DfG5JEAmA", sample_server).
Proof.
  split; [reflexivity|]. split; [reflexivity|].
  pose proof (addYouTubeVideo_idempotent sample_provider
                {| url := "https://youtu.be/P2DfG5JEAmA"; language := None |}
                "P2DfG5JEAmA" sample_server eq_refl (or_introl eq_refl)) as H.
  cbv zeta in H. destruct H as (R & _ & _ & _ & _ & S).
  rewrite (surjective_pairing (addYouTubeVideo _ _ _)), R, S. reflexivity.
Defined.

(** C7.  On a store that is not empty, a query that is absent, empty or
    made of white space only gets the InvalidQuery report, an error, not a
    list of matches nor the NoMatches report, and the state is unchanged. *)
Theorem searchTranscripts_blank_query
        (localeCompare : string -> string -> Z) (args : search_args) (st : server) :
  JsMap.size (videos st) <> 0%nat ->
  match query args with
  | Some q => all is_space q = true
  | None => True
  end ->
  let r := searchTranscripts localeCompare args st in
  fst r = InvalidQuery
  /\ is_error (fst r) = true
  /\ (forall q searched, fst r <> NoMatches q searched)
  /\ (forall q results, fst r <> Matches q results)
  /\ snd r = st.
Proof.
  intros N B. cbv zeta.
  assert (E : searchTranscripts localeCompare args st = (InvalidQuery, st)).
  { unfold searchTranscripts, bind, get_videos, ret.
    destruct (Nat.eqb_spec (JsMap.size (videos st)) 0); [contradiction|].
    destruct (query args) as [q|]; auto.
    apply trim_blank in B. rewrite B. reflexivity. }
  rewrite E. repeat split; auto; discriminate.
Qed.

(** The theorem on the sample server, for a query of blanks and a tab. *)
Lemma searchTranscripts_blank_query_witness :
  JsMap.size (videos sample_server) <> 0%nat
  /\ searchTranscripts collationCompare
       {| query := Some (String " " (String (ascii_of_nat 9) " "));
          videoIds := None; contextWords := None |} sample_server
     = (InvalidQuery, sample_server).
Proof.
  split; [discriminate|].
  pose proof (searchTranscripts_blank_query collationCompare
                {| query := Some (String " " (String (ascii_of_nat 9) " "));
                   videoIds := None; contextWords := None |} sample_server
                ltac:(discriminate) eq_refl) as H.
  cbv zeta in H. destruct H as (R & _ & _ & _ & S).
  rewrite (surjective_pairing (searchTranscripts _ _ _)), R, S. reflexivity.
Defined.

(** C8.  [removeVideo] with an identifier that is not in the store reports
    NotFound and leaves the state as it is.  With an identifier of the
    store it reports the title and the identifier of the stored record and
    removes that record only: the other records keep their place and their
    value, and the store has one record less. *)
Theorem removeVideo_removes_one (id : string) (st : server) :
  store_ok (videos st) = true ->
  let r := removeVideo {| r_videoId := id |} st in
  match JsMap.get id (videos st) with
  | None => r = (RemoveNotFound id, st)
  | Some v =>
      fst r = Removed (Video.title v) (Video.id v)
      /\ Video.id v = id
      /\ videos (snd r) = filter (fun kv => negb (String.eqb (fst kv) id)) (videos st)
      /\ JsMap.get id (videos (snd r)) = None
      /\ (forall k, k <> id -> JsMap.get k (videos (snd r)) = JsMap.get k (videos st))
      /\ S (JsMap.size (videos (snd r))) = JsMap.size (videos st)
      /\ fetched (snd r) = fetched st
  end.
Proof.
  intros Ok. cbv zeta. unfold removeVideo, bind, get_videos, ret, update_videos.
  cbn [r_videoId].
  destruct (JsMap.get id (videos st)) as [v|] eqn:G; [|reflexivity].
  destruct (store_ok_elim _ Ok) as [D Ids].
  destruct (Ids id v G) as [_ I]. cbn [fst snd videos fetched].
  pose proof (delete_filter id (videos st) D) as Hd. rewrite Hd.
  repeat split; auto.
  - rewrite I. reflexivity.
  - apply get_filter_same.
  - intros k N. apply get_filter_other. auto.
  - rewrite <- Hd. eapply delete_size; eauto.
Qed.

(** The theorem on the sample server: removing a loaded video. *)
Lemma removeVideo_removes_one_witness :
  store_ok (videos sample_server) = true
  /\ fst (removeVideo {| r_videoId := "P2DfG5JEAmA" |} sample_server)
     = Removed "Video P2DfG5JEAmA" "P2DfG5JEAmA"
  /\ JsMap.keys (videos (snd (removeVideo {| r_videoId := "P2DfG5JEAmA" |} sample_server)))
     = ["dQw4w9WgXcQ"].
Proof.
  split; [reflexivity|].
  pose proof (removeVideo_removes_one "P2DfG5JEAmA" sample_server eq_refl) as H.
  split; [exact (proj1 H) | reflexivity].
Defined.

(** [searchTranscripts] past its two guards. *)
Lemma searchTranscripts_valid
      (localeCompare : string -> string -> Z) (st : server)
      (q : string) (ids : option (list string)) (cw : option Z) :
  JsMap.size (videos st) <> 0%nat ->
  all is_space q = false ->
  searchTranscripts localeCompare
    {| query := Some q; videoIds := ids; contextWords := cw |} st
  = (let searchIds := match ids with
                      | Some l => l
                      | None => JsMap.keys (videos st)
                      end in
     let allResults := collect (videos st) q (default 5%Z cw) searchIds in
     if (List.length allResults =? 0)%nat then
       NoMatches q (if (List.length searchIds <=? 3)%nat then join ", " searchIds
                    else of_nat (List.length searchIds) ++ " videos")
     else Matches q (JsArray.sort (compareResults localeCompare) allResults),
     st).
Proof.
  intros N B. unfold searchTranscripts, bind, get_videos, ret. cbn [query videoIds contextWords].
  destruct (Nat.eqb_spec (JsMap.size (videos st)) 0); [contradiction|].
  assert (T : truthy (trim q) = true).
  { destruct (truthy (trim q)) eqn:T; auto.
    apply truthy_false, trim_blank in T. congruence. }
  rewrite T. cbn [negb]. cbv zeta.
  destruct (List.length _ =? 0)%nat; reflexivity.
Qed.

(** An identifier that is not in the store adds nothing to [allResults]. *)
Lemma collect_present (loaded : JsMap.t Video.t) (q : string) (cw : Z)
      (ids : list string) :
  collect loaded q cw ids
  = collect loaded q cw (filter (fun id => JsMap.has id loaded) ids).
Proof.
  induction ids as [|id ids IH]; cbn [collect filter]; auto.
  unfold JsMap.has at 1. destruct (JsMap.get id loaded) as [v|] eqn:G.
  - cbn [collect]. rewrite G, IH. reflexivity.
  - exact IH.
Qed.

(** C9.  On a store that is not empty and for a query that is not blank,
    a [videoIds] list that is supplied and empty makes the set of
    candidates empty: the report is NoMatches, whatever the stored videos
    contain.  An absent [videoIds] searches all the stored videos, in the
    order of the store, and a supplied list is searched as it is. *)
Theorem searchTranscripts_empty_videoIds
        (localeCompare : string -> string -> Z) (st : server)
        (q : string) (cw : option Z) :
  JsMap.size (videos st) <> 0%nat ->
  all is_space q = false ->
  searchTranscripts localeCompare
    {| query := Some q; videoIds := Some []; contextWords := cw |} st
  = (NoMatches q "", st)
  /\ searchTranscripts localeCompare
       {| query := Some q; videoIds := None; contextWords := cw |} st
     = searchTranscripts localeCompare
         {| query := Some q; videoIds := Some (JsMap.keys (videos st));
            contextWords := cw |} st
  /\ (forall ids q' results,
         fst (searchTranscripts localeCompare
                {| query := Some q; videoIds := Some ids; contextWords := cw |} st)
         = Matches q' results ->
         results = JsArray.sort (compareResults localeCompare)
                     (collect (videos st) q (default 5%Z cw) ids)).
Proof.
  intros N B. split; [|split].
  - rewrite searchTranscripts_valid by auto. reflexivity.
  - rewrite !searchTranscripts_valid by auto. reflexivity.
  - intros ids q' results. rewrite searchTranscripts_valid by auto.
    cbv zeta. cbn [fst].
    destruct (List.length _ =? 0)%nat; [discriminate|]. congruence.
Qed.

(** The theorem on the sample server, where the query matches stored
    entries: the empty list finds nothing, the absent one finds them. *)
Lemma searchTranscripts_empty_videoIds_witness :
  JsMap.size (videos sample_server) <> 0%nat
  /\ all is_space "never" = false
  /\ searchTranscripts collationCompare
       {| query := Some "never"; videoIds := Some []; contextWords := None |}
       sample_server
     = (NoMatches "never" "", sample_server)
  /\ (exists results,
        fst (searchTranscripts collationCompare
               {| query := Some "never"; videoIds := None; contextWords := None |}
               sample_server)
        = Matches "never" results /\ List.length results = 4%nat).
Proof.
  split; [discriminate|]. split; [reflexivity|]. split.
  - exact (proj1 (searchTranscripts_empty_videoIds collationCompare sample_server
                    "never" None ltac:(discriminate) eq_refl)).
  - eexists. split; [vm_compute; reflexivity | reflexivity].
Defined.

(** C10.  Identifiers of a supplied [videoIds] list that are not in the
    store are skipped: [allResults] is what the identifiers of the list that
    are in the store give, an unknown identifier alone gives nothing, the
    report is never an error, the matches reported are those of the call
    without the unknown identifiers, and the state is unchanged. *)
Theorem searchTranscripts_skips_unknown_ids
        (localeCompare : string -> string -> Z) (st : server)
        (q : string) (cw : option Z) (ids : list string) :
  JsMap.size (videos st) <> 0%nat ->
  all is_space q = false ->
  let present := filter (fun id => JsMap.has id (videos st)) ids in
  let search l :=
    searchTranscripts localeCompare
      {| query := Some q; videoIds := Some l; contextWords := cw |} st in
  collect (videos st) q (default 5%Z cw) ids
  = collect (videos st) q (default 5%Z cw) present
  /\ (forall id, JsMap.has id (videos st) = false ->
                 collect (videos st) q (default 5%Z cw) [id] = [])
  /\ snd (search ids) = st
  /\ is_error (fst (search ids)) = false
  /\ match fst (search ids), fst (search present) with
     | Matches q1 r1, Matches q2 r2 => q1 = q2 /\ r1 = r2
     | NoMatches q1 _, NoMatches q2 _ => q1 = q2
     | _, _ => False
     end.
Proof.
  intros N B. cbv zeta.
  pose proof (collect_present (videos st) q (default 5%Z cw) ids) as C.
  split; [exact C|]. split; [|split; [|split]].
  - intros id H. apply has_false_get in H. cbn [collect]. rewrite H. reflexivity.
  - rewrite searchTranscripts_valid by auto. reflexivity.
  - rewrite searchTranscripts_valid by auto. cbv zeta. cbn [fst].
    destruct (List.length _ =? 0)%nat; reflexivity.
  - rewrite !searchTranscripts_valid by auto. cbv zeta. cbn [fst].
    rewrite <- C.
    destruct (List.length _ =? 0)%nat; auto.
Qed.

(** The theorem on the sample server, with an unknown identifier between
    two known ones. *)
Lemma searchTranscripts_skips_unknown_ids_witness :
  JsMap.size (videos sample_server) <> 0%nat
  /\ all is_space "never" = false
  /\ fst (searchTranscripts collationCompare
            {| query := Some "never";
               videoIds := Some ["dQw4w9WgXcQ"; "xxxxxxxxxxx"; "P2DfG5JEAmA"];
               contextWords := None |} sample_server)
     = fst (searchTranscripts collationCompare
              {| query := Some "never";
                 videoIds := Some ["dQw4w9WgXcQ"; "P2DfG5JEAmA"];
                 contextWords := None |} sample_server)
  /\ collect (videos sample_server) "never" 5
       ["dQw4w9WgXcQ"; "xxxxxxxxxxx"; "P2DfG5JEAmA"]
     = collect (videos sample_server) "never" 5 ["dQw4w9WgXcQ"; "P2DfG5JEAmA"].
Proof.
  split; [discriminate|]. split; [reflexivity|]. split; [vm_compute; reflexivity|].
  exact (proj1 (searchTranscripts_skips_unknown_ids collationCompare sample_server
                  "never" None ["dQw4w9WgXcQ"; "xxxxxxxxxxx"; "P2DfG5JEAmA"]
                  ltac:(discriminate) eq_refl)).
Defined.

(** C4, as the code has it.  After [addYouTubeVideo] has loaded a video
    from the captions of the provider, [getVideoTranscript] with the format
    [json] returns exactly the ingested entries: as many, with the same
    texts in the same order, the start and the duration of each being the
    millisecond values of the provider divided by 1000.  With any other
    format, the default [text] among them, it returns one line for each
    ingested entry, in the same order, with the text of the entry and its
    start cut down to whole minutes and seconds; the duration is not
    returned. *)
Theorem addVideo_getTranscript_roundtrip
        (fetchTranscript : list (string * string) -> string -> string -> string + list Caption.t)
        (args : add_args) (id : string) (st : server) (captions : list Caption.t) :
  extractVideoId (url args) = Some id ->
  JsMap.has id (videos st) = false ->
  fetchTranscript (fetched st) id (default "en" (language args)) = inr captions ->
  let r := addYouTubeVideo fetchTranscript args st in
  let st' := snd r in
  let stored :=
    map (fun c => {| Entry.text := Caption.text c;
                     Entry.start := Caption.offset c / 1000;
                     Entry.duration := Caption.duration c / 1000 |}) captions in
  (exists u l d, fst r = Loaded id u (List.length captions) l d)
  /\ getVideoTranscript {| videoId := id; format := Some "json" |} st'
     = (TranscriptJson id stored, st')
  /\ List.length stored = List.length captions
  /\ map Entry.text stored = map Caption.text captions
  /\ (forall fmt,
        fmt <> Some "json" ->
        getVideoTranscript {| videoId := id; format := fmt |} st'
        = (TranscriptText ("Video " ++ id) id ("https://www.youtube.com/watch?v=" ++ id)
             (map (fun c =>
                     (JsNumber.floor (Caption.offset c / 1000 / 60),
                      JsNumber.floor (JsNumber.rem (Caption.offset c / 1000) 60),
                      Caption.text c)) captions),
           st')).
Proof.
  intros E H F. cbv zeta.
  rewrite (add_absent fetchTranscript args id st captions E H F). cbv zeta.
  cbn [fst snd]. split; [|split; [|split; [|split]]].
  - rewrite length_map. eauto.
  - unfold getVideoTranscript, bind, get_videos, ret. cbn [videoId format videos default].
    rewrite get_set_same. reflexivity.
  - apply length_map.
  - rewrite map_map. reflexivity.
  - intros fmt N.
    unfold getVideoTranscript, bind, get_videos, ret. cbn [videoId format videos].
    rewrite get_set_same.
    assert (X : String.eqb (default "text" fmt) "json" = false).
    { destruct fmt as [f|]; [|reflexivity]. simpl.
      apply String.eqb_neq. congruence. }
    rewrite X. cbn [Video.title Video.url Video.transcript].
    rewrite map_map. reflexivity.
Qed.

(** The theorem for the first video of the sample provider, on a new
    server. *)
Lemma addVideo_getTranscript_roundtrip_witness :
  extractVideoId "https://youtu.be/dQw4w9WgXcQ" = Some "dQw4w9WgXcQ"
  /\ JsMap.has "dQw4w9WgXcQ" (videos initial) = false
  /\ fst (getVideoTranscript {| videoId := "dQw4w9WgXcQ"; format := Some "json" |}
            (snd (addYouTubeVideo sample_provider
                    {| url := "https://youtu.be/dQw4w9WgXcQ"; language := None |}
                    initial)))
     = TranscriptJson "dQw4w9WgXcQ"
         [ {| Entry.text := "Never gonna give you up";
              Entry.start := 0 / 1000; Entry.duration := 2000 / 1000 |};
           {| Entry.text := "never gonna let you down";
              Entry.start := 2000 / 1000; Entry.duration := 2500 / 1000 |} ].
Proof.
  split; [reflexivity|]. split; [reflexivity|].
  pose proof (addVideo_getTranscript_roundtrip sample_provider
                {| url := "https://youtu.be/dQw4w9WgXcQ"; language := None |}
                "dQw4w9WgXcQ" initial
                [ caption "Never gonna give you up" 0 2000;
                  caption "never gonna let you down" 2000 2500 ]
                eq_refl eq_refl eq_refl) as H.
  cbv zeta in H. destruct H as (_ & J & _).
  rewrite J. reflexivity.
Defined.

(** C4 as stated fails for the default format: two ingestions that differ
    in the start and in the duration of their entry are both loaded, and
    [getVideoTranscript] returns the same line for both, the start cut down
    to the second and no duration. *)
Lemma getVideoTranscript_text_loses_times :
  let provider1 := fun (_ : list (string * string)) (_ _ : string) =>
                     inr (A := string) [caption "hello" 1500 2000] in
  let provider2 := fun (_ : list (string * string)) (_ _ : string) =>
                     inr (A := string) [caption "hello" 1000 500] in
  let args := {| url := "dQw4w9WgXcQ"; language := None |} in
  let get := getVideoTranscript {| videoId := "dQw4w9WgXcQ"; format := None |} in
  fst (addYouTubeVideo provider1 args initial)
  = Loaded "dQw4w9WgXcQ" "https://www.youtube.com/watch?v=dQw4w9WgXcQ" 1 "en"
      (1500 / 1000 + JsNumber.or_zero (2000 / 1000))
  /\ fst (get (snd (addYouTubeVideo provider1 args initial)))
     = TranscriptText "Video dQw4w9WgXcQ" "dQw4w9WgXcQ"
         "https://www.youtube.com/watch?v=dQw4w9WgXcQ" [(0%Z, 1%Z, "hello")]
  /\ fst (get (snd (addYouTubeVideo provider2 args initial)))
     = fst (get (snd (addYouTubeVideo provider1 args initial)))
  /\ ~ (1500 / 1000 == 1000 / 1000)
  /\ ~ (2000 / 1000 == 500 / 1000).
Proof.
  cbv zeta. repeat split; try reflexivity; intros H; vm_compute in H; discriminate.
Qed.

(* ================================================================== *)
(** ** Sorting *)

Section SortFacts.
Context {A : Type}.
Variable cmp : A -> A -> Q.
Variable P : A -> Prop.

Let le (x y : A) : Prop := cmp x y <= 0.

Hypothesis cmp_total : forall x y, P x -> P y -> le x y \/ le y x.
Hypothesis cmp_transitive :
  forall x y z, P x -> P y -> P z -> le x y -> le y z -> le x z.

Lemma insert_perm (x : A) (l : list A) :
  Permutation (JsArray.insert cmp x l) (x :: l).
Proof.
  induction l as [|y l IH]; simpl; auto.
  destruct (Qle_bool (cmp x y) 0); auto.
  rewrite IH. apply perm_swap.
Qed.

Lemma sort_perm (l : list A) : Permutation (JsArray.sort cmp l) l.
Proof.
  induction l as [|x l IH]; simpl; auto.
  rewrite insert_perm. auto.
Qed.

Lemma insert_sorted (x : A) (l : list A) :
  P x -> Forall P l -> StronglySorted le l ->
  StronglySorted le (JsArray.insert cmp x l).
Proof.
  intros Px. induction l as [|y l IH]; intros Pl Sl; simpl.
  - constructor; constructor.
  - inversion Pl as [|? ? Py Pl']; subst. inversion Sl as [|? ? Sl' Fy]; subst.
    destruct (Qle_bool (cmp x y) 0) eqn:E.
    + apply Qle_bool_iff in E. constructor; auto. constructor; auto.
      rewrite Forall_forall in *. intros z I.
      apply (cmp_transitive x y z); auto.
    + constructor; auto.
      apply (Permutation_Forall (Permutation_sym (insert_perm x l))).
      constructor; auto.
      destruct (cmp_total x y Px Py) as [L | L]; auto.
      apply Qle_bool_iff in L. congruence.
Qed.

Lemma sort_sorted (l : list A) :
  Forall P l -> StronglySorted le (JsArray.sort cmp l).
Proof.
  induction l as [|x l IH]; intros Pl; simpl.
  - constructor.
  - inversion Pl; subst. apply insert_sorted; auto.
    apply (Permutation_Forall (Permutation_sym (sort_perm l))). auto.
Qed.

End SortFacts.

(* ================================================================== *)
(** ** The comparators *)

Lemma compare_keys_refl (a : list nat) : compare_keys a a = 0%Z.
Proof. induction a; simpl; auto. rewrite Nat.compare_refl. auto. Qed.

Lemma compare_keys_eq (a b : list nat) : compare_keys a b = 0%Z -> a = b.
Proof.
  revert b; induction a as [|x a IH]; intros [|y b]; simpl; try discriminate; auto.
  destruct (Nat.compare_spec x y) as [-> | _ | _]; try discriminate.
  intros K. f_equal; auto.
Qed.

Lemma compare_keys_antisym (a b : list nat) :
  (compare_keys a b < 0)%Z <-> (compare_keys b a > 0)%Z.
Proof.
  revert b; induction a as [|x a IH]; intros [|y b]; simpl; try lia.
  rewrite (Nat.compare_antisym x y).
  destruct (Nat.compare_spec x y); simpl; try lia. apply IH.
Qed.

Lemma compare_keys_trans (a b c : list nat) :
  (compare_keys a b <= 0)%Z -> (compare_keys b c <= 0)%Z -> (compare_keys a c <= 0)%Z.
Proof.
  revert b c; induction a as [|x a IH]; intros [|y b] [|z c]; simpl; try lia.
  destruct (Nat.compare_spec x y), (Nat.compare_spec y z), (Nat.compare_spec x z);
    try lia; eauto.
Qed.

Lemma unkey_key (c : ascii) : unkey (primary c) (tertiary c) = c.
Proof. destruct c as [[] [] [] [] [] [] [] []]; reflexivity. Qed.

Lemma app_inj_length {B : Type} (l1 l2 l1' l2' : list B) :
  List.length l1 = List.length l1' -> (l1 ++ l2 = l1' ++ l2')%list ->
  l1 = l1' /\ l2 = l2'.
Proof.
  revert l1'; induction l1 as [|x l1 IH]; intros [|y l1'] L H; simpl in *;
    try discriminate; auto.
  injection H as -> H2. injection L as L2. destruct (IH _ L2 H2) as [-> ->]. auto.
Qed.

Lemma keys_inj (l l' : list ascii) :
  map primary l = map primary l' -> map tertiary l = map tertiary l' -> l = l'.
Proof.
  revert l'; induction l as [|c l IH]; intros [|d l'] Hp Ht; simpl in *;
    try discriminate; auto.
  injection Hp as Hp Hp'. injection Ht as Ht Ht'.
  f_equal; auto.
  rewrite <- (unkey_key c), <- (unkey_key d), Hp, Ht. reflexivity.
Qed.

Lemma sortKey_inj (a b : string) : sortKey a = sortKey b -> a = b.
Proof.
  unfold sortKey. intros H.
  assert (L : List.length (map primary (list_ascii_of_string a))
              = List.length (map primary (list_ascii_of_string b))).
  { apply (f_equal (@List.length nat)) in H.
    rewrite !length_app in H. simpl in H. rewrite !length_map in *. lia. }
  apply app_inj_length in H as [Hp Ht]; auto.
  injection Ht as Ht.
  rewrite <- (string_of_list_ascii_of_string a), <- (string_of_list_ascii_of_string b).
  f_equal. apply keys_inj; auto.
Qed.

(** The collation is a consistent comparator, on all strings. *)
Lemma collationCompare_consistent : consistent collationCompare.
Proof.
  unfold collationCompare. split.
  - intros a b _ _. apply compare_keys_antisym.
  - intros a b c _ _ _. apply compare_keys_trans.
  - intros a b _ _ H. apply sortKey_inj, compare_keys_eq. auto.
Qed.

(* ================================================================== *)
(** ** The search engine: the order of the results *)

Lemma inject_Z_nonpos (z : Z) : inject_Z z <= 0 <-> (z <= 0)%Z.
Proof. unfold Qle, inject_Z. simpl. lia. Qed.

Section ResultOrder.
Variable localeCompare : string -> string -> Z.
Hypothesis localeCompare_consistent : consistent localeCompare.

Let valid (r : Result.t) : Prop := is_video_id (Result.videoId r) = true.

Lemma compareResults_total (a b : Result.t) :
  valid a -> valid b ->
  compareResults localeCompare a b <= 0 \/ compareResults localeCompare b a <= 0.
Proof.
  unfold valid, compareResults. intros Va Vb.
  rewrite (String.eqb_sym (Result.videoId b)).
  destruct (String.eqb (Result.videoId a) (Result.videoId b)).
  - destruct (Qlt_le_dec (Result.timestamp b) (Result.timestamp a)) as [L | L].
    + right. apply Qlt_le_weak in L. unfold Qminus.
      apply (Qplus_le_l _ _ (Result.timestamp a)). ring_simplify. exact L.
    + left. apply (Qplus_le_l _ _ (Result.timestamp b)). ring_simplify. exact L.
  - destruct (Z_le_gt_dec (localeCompare (Result.videoId a) (Result.videoId b)) 0)
      as [L | G].
    + left. apply (proj2 (inject_Z_nonpos _)). exact L.
    + right. apply (proj2 (inject_Z_nonpos _)).
      apply (cmp_antisym _ localeCompare_consistent) in G; auto. lia.
Qed.

Lemma compareResults_le (a b : Result.t) :
  valid a -> valid b ->
  compareResults localeCompare a b <= 0 -> result_le localeCompare a b.
Proof.
  unfold valid, compareResults, result_le. intros Va Vb.
  destruct (String.eqb_spec (Result.videoId a) (Result.videoId b)) as [E | N].
  - intros L. right. split; auto.
    apply (Qplus_le_l _ _ (- Result.timestamp b)). ring_simplify.
    ring_simplify in L. exact L.
  - intros L. left. apply (proj1 (inject_Z_nonpos _)) in L.
    destruct (Z.eq_dec (localeCompare (Result.videoId a) (Result.videoId b)) 0)
      as [Z0 | NZ]; [|lia].
    apply (cmp_eq _ localeCompare_consistent) in Z0; auto. contradiction.
Qed.

Lemma compareResults_trans (a b c : Result.t) :
  valid a -> valid b -> valid c ->
  compareResults localeCompare a b <= 0 ->
  compareResults localeCompare b c <= 0 ->
  compareResults localeCompare a c <= 0.
Proof.
  unfold valid. intros Va Vb Vc Lab Lbc.
  pose proof (compareResults_le a b Va Vb Lab) as Rab.
  pose proof (compareResults_le b c Vb Vc Lbc) as Rbc.
  unfold result_le in *. unfold compareResults.
  destruct (String.eqb_spec (Result.videoId a) (Result.videoId c)) as [E | N].
  - destruct Rab as [Rab | [Eab Tab]], Rbc as [Rbc | [Ebc Tbc]].
    + exfalso. rewrite <- E in Rbc.
      apply (cmp_antisym _ localeCompare_consistent) in Rab; auto. lia.
    + exfalso. rewrite Ebc, E in Rab.
      assert (Irr : (localeCompare (Result.videoId c) (Result.videoId c) > 0)%Z)
        by (apply (cmp_antisym _ localeCompare_consistent); auto).
      lia.
    + exfalso. rewrite <- Eab, E in Rbc.
      assert (Irr : (localeCompare (Result.videoId c) (Result.videoId c) > 0)%Z)
        by (apply (cmp_antisym _ localeCompare_consistent); auto).
      lia.
    + apply (Qplus_le_l _ _ (Result.timestamp c)). ring_simplify.
      eapply Qle_trans; eauto.
  - apply (proj2 (inject_Z_nonpos _)).
    destruct Rab as [Rab | [Eab Tab]], Rbc as [Rbc | [Ebc Tbc]].
    + apply (cmp_trans _ localeCompare_consistent) with (b := Result.videoId b);
        auto; lia.
    + rewrite <- Ebc. lia.
    + rewrite Eab. lia.
    + congruence.
Qed.

Lemma sort_results_sorted (l : list Result.t) :
  Forall valid l ->
  StronglySorted (result_le localeCompare)
    (JsArray.sort (compareResults localeCompare) l).
Proof.
  intros V.
  pose proof (sort_sorted (compareResults localeCompare) valid
                compareResults_total compareResults_trans l V) as S.
  pose proof (Permutation_Forall
                (Permutation_sym (sort_perm (compareResults localeCompare) l)) V) as V'.
  revert S V'. generalize (JsArray.sort (compareResults localeCompare) l).
  induction 1 as [|x l' S' IH F]; intros V'; constructor.
  - inversion V'; auto.
  - inversion V' as [|? ? Vx Vl]; subst.
    rewrite Forall_forall in *. intros y I. apply compareResults_le; auto.
Qed.

End ResultOrder.

Lemma collect_cons (loaded : JsMap.t Video.t) (q : string) (cw : Z)
      (id : string) (ids : list string) :
  collect loaded q cw (id :: ids)
  = (collect loaded q cw [id] ++ collect loaded q cw ids)%list.
Proof.
  cbn [collect]. destruct (JsMap.get id loaded); [|reflexivity].
  rewrite app_nil_r. reflexivity.
Qed.

(** The matches found do not depend on the order of the scan. *)
Lemma collect_perm (loaded : JsMap.t Video.t) (q : string) (cw : Z)
      (ids ids' : list string) :
  Permutation ids ids' ->
  Permutation (collect loaded q cw ids) (collect loaded q cw ids').
Proof.
  induction 1 as [|x l l' _ IH|x y l|l l' l'' _ IH1 _ IH2].
  - constructor.
  - rewrite (collect_cons _ _ _ x l), (collect_cons _ _ _ x l').
    apply Permutation_app_head. exact IH.
  - rewrite (collect_cons _ _ _ y (x :: l)), (collect_cons _ _ _ x l),
      (collect_cons _ _ _ x (y :: l)), (collect_cons _ _ _ y l).
    apply Permutation_app_swap_app.
  - eapply Permutation_trans; eauto.
Qed.

Lemma collect_valid (loaded : JsMap.t Video.t) (q : string) (cw : Z)
      (ids : list string) :
  store_ok loaded = true ->
  Forall (fun r => is_video_id (Result.videoId r) = true) (collect loaded q cw ids).
Proof.
  intros Ok. destruct (store_ok_elim _ Ok) as [_ Ids].
  induction ids as [|id ids IH]; cbn [collect]; [constructor|].
  destruct (JsMap.get id loaded) as [v|] eqn:G; auto.
  apply Forall_app. split; auto.
  apply Forall_forall. intros r I. apply in_map_iff in I as (m & <- & _).
  cbn. apply (Ids id v G).
Qed.

(** What a report of matches says about the call. *)
Lemma searchTranscripts_matches_inv
      (localeCompare : string -> string -> Z) (args : search_args) (st : server)
      (q : string) (results : list Result.t) :
  fst (searchTranscripts localeCompare args st) = Matches q results ->
  JsMap.size (videos st) <> 0%nat
  /\ query args = Some q
  /\ all is_space q = false
  /\ results
     = JsArray.sort (compareResults localeCompare)
         (collect (videos st) q (default 5%Z (contextWords args))
            (match videoIds args with
             | Some ids => ids
             | None => JsMap.keys (videos st)
             end))
  /\ results <> [].
Proof.
  unfold searchTranscripts, bind, get_videos, ret.
  destruct (Nat.eqb_spec (JsMap.size (videos st)) 0); [discriminate|].
  destruct (query args) as [q0|]; [|discriminate].
  destruct (truthy (trim q0)) eqn:T; [|discriminate]. cbn [negb].
  destruct (Nat.eqb_spec (List.length (collect (videos st) q0
             (default 5%Z (contextWords args))
             (match videoIds args with
              | Some ids => ids
              | None => JsMap.keys (videos st)
              end))) 0) as [L | L]; [discriminate|].
  cbn [fst]. intros [= <- <-]. repeat split; auto.
  - destruct (all is_space q0) eqn:B; auto.
    apply trim_blank in B. rewrite B in T. discriminate.
  - intros E. apply L.
    rewrite <- (Permutation_length (sort_perm (compareResults localeCompare) _)).
    rewrite E. reflexivity.
Qed.

(** C1, as the code has it.  Every list of matches that [searchTranscripts]
    returns is ordered by video identifier, in the order that the
    comparator [localeCompare] of the host gives to identifiers, and for
    one identifier by ascending time.  It holds the matches found in the
    candidate videos, and any other order of the scan ([ids'], a
    permutation of the candidates) returns a list ordered the same way
    with the same matches. *)
Theorem searchTranscripts_sorted
        (localeCompare : string -> string -> Z) (args : search_args) (st : server)
        (q : string) (results : list Result.t) :
  consistent localeCompare ->
  store_ok (videos st) = true ->
  fst (searchTranscripts localeCompare args st) = Matches q results ->
  let candidates := match videoIds args with
                    | Some ids => ids
                    | None => JsMap.keys (videos st)
                    end in
  StronglySorted (result_le localeCompare) results
  /\ Permutation results
       (collect (videos st) q (default 5%Z (contextWords args)) candidates)
  /\ (forall ids',
        Permutation candidates ids' ->
        exists results',
          fst (searchTranscripts localeCompare
                 {| query := query args; videoIds := Some ids';
                    contextWords := contextWords args |} st)
          = Matches q results'
          /\ StronglySorted (result_le localeCompare) results'
          /\ Permutation results results').
Proof.
  intros C Ok H. cbv zeta.
  apply searchTranscripts_matches_inv in H as (N & Q & B & -> & NE).
  split; [|split].
  - apply sort_results_sorted; auto. apply collect_valid; auto.
  - apply sort_perm.
  - intros ids' Pi. rewrite Q.
    rewrite searchTranscripts_valid by auto. cbv zeta. cbn [fst].
    pose proof (collect_perm (videos st) q (default 5%Z (contextWords args)) _ _ Pi)
      as Pc.
    destruct (Nat.eqb_spec
                (List.length (collect (videos st) q (default 5%Z (contextWords args)) ids'))
                0) as [L | L].
    + exfalso. apply NE.
      apply Permutation_length in Pc. rewrite L in Pc.
      apply length_zero_iff_nil in Pc. rewrite Pc. reflexivity.
    + eexists. split; [reflexivity|]. split.
      * apply sort_results_sorted; auto. apply collect_valid; auto.
      * rewrite !sort_perm. exact Pc.
Qed.

(** The theorem on the sample server, under the collation of the hosts:
    the matches of [dQw4w9WgXcQ] come first, each video by ascending time,
    whichever video is scanned first. *)
Lemma searchTranscripts_sorted_witness :
  consistent collationCompare
  /\ store_ok (videos sample_server) = true
  /\ (exists results,
        fst (searchTranscripts collationCompare
               {| query := Some "never"; videoIds := None; contextWords := None |}
               sample_server)
        = Matches "never" results
        /\ map (fun r => (Result.videoId r, Match.matchIndex (Result.found r))) results
           = [ ("dQw4w9WgXcQ", 0%nat); ("dQw4w9WgXcQ", 1%nat);
               ("P2DfG5JEAmA", 1%nat); ("P2DfG5JEAmA", 0%nat) ]
        /\ StronglySorted (result_le collationCompare) results).
Proof.
  split; [exact collationCompare_consistent|]. split; [reflexivity|].
  eexists. split; [vm_compute; reflexivity|]. split; [reflexivity|].
  refine (proj1 (searchTranscripts_sorted collationCompare
                   {| query := Some "never"; videoIds := None; contextWords := None |}
                   sample_server "never" _ collationCompare_consistent eq_refl _)).
  vm_compute. reflexivity.
Defined.

(** C1 as stated fails where [localeCompare] is the collation of the hosts:
    [P2DfG5JEAmA] is before [dQw4w9WgXcQ] in the lexicographic order of
    code units, and the matches of [dQw4w9WgXcQ] are returned first. *)
Lemma searchTranscripts_not_lexicographic :
  (codeUnitCompare "P2DfG5JEAmA" "dQw4w9WgXcQ" < 0)%Z
  /\ (collationCompare "dQw4w9WgXcQ" "P2DfG5JEAmA" < 0)%Z
  /\ (exists results,
        fst (searchTranscripts collationCompare
               {| query := Some "never"; videoIds := None; contextWords := None |}
               sample_server)
        = Matches "never" results
        /\ map Result.videoId results
           = ["dQw4w9WgXcQ"; "dQw4w9WgXcQ"; "P2DfG5JEAmA"; "P2DfG5JEAmA"]
        /\ ~ StronglySorted (result_le codeUnitCompare) results).
Proof.
  split; [reflexivity|]. split; [reflexivity|].
  eexists. split; [vm_compute; reflexivity|]. split; [reflexivity|].
  intros S. inversion S as [|? ? _ F]; subst.
  inversion F as [|? ? _ F1]; subst. inversion F1 as [|? ? [L | [E _]] _]; subst.
  - vm_compute in L. discriminate.
  - vm_compute in E. discriminate.
Qed.

(* ================================================================== *)
(** ** Further properties of the facade: adding *)

Section AddOutcomes.
Variable fetchTranscript :
  list (string * string) -> string -> string -> string + list Caption.t.

Lemma add_unresolved (args : add_args) (st : server) :
  extractVideoId (url args) = None ->
  addYouTubeVideo fetchTranscript args st = (InvalidReference (url args), st).
Proof. intros E. unfold addYouTubeVideo. rewrite E. reflexivity. Qed.

Lemma add_failed (args : add_args) (id message : string) (st : server) :
  extractVideoId (url args) = Some id ->
  JsMap.has id (videos st) = false ->
  fetchTranscript (fetched st) id (default "en" (language args)) = inl message ->
  addYouTubeVideo fetchTranscript args st
  = (ProviderError id message,
     {| videos := videos st;
        fetched := (fetched st ++ [(id, default "en" (language args))])%list |}).
Proof.
  intros E H F. unfold addYouTubeVideo. rewrite E.
  rewrite (video_id_truthy id (extractVideoId_valid _ _ E)). cbn [negb].
  unfold bind, get_videos, ret, fetch. rewrite H. cbn [videos fetched].
  rewrite F. reflexivity.
Qed.

(** The states a call of [addYouTubeVideo] can lead to. *)
Lemma add_states (args : add_args) (st : server) :
  let st' := snd (addYouTubeVideo fetchTranscript args st) in
  st' = st
  \/ (exists id lang,
         is_video_id id = true
         /\ JsMap.has id (videos st) = false
         /\ fetched st' = (fetched st ++ [(id, lang)])%list
         /\ (videos st' = videos st
             \/ exists v, Video.id v = id /\ videos st' = JsMap.set id v (videos st))).
Proof.
  cbv zeta. destruct (extractVideoId (url args)) as [id|] eqn:E.
  - destruct (JsMap.has id (videos st)) eqn:H.
    + left. rewrite (add_present fetchTranscript args id st E H). reflexivity.
    + right. exists id, (default "en" (language args)).
      split; [eapply extractVideoId_valid; eauto|]. split; auto.
      destruct (fetchTranscript (fetched st) id (default "en" (language args)))
        as [message | captions] eqn:F.
      * rewrite (add_failed args id message st E H F). cbn. auto.
      * rewrite (add_absent fetchTranscript args id st captions E H F). cbn.
        split; auto. right. eexists. split; [|reflexivity]. reflexivity.
  - left. rewrite (add_unresolved args st E). reflexivity.
Qed.

End AddOutcomes.

(* ================================================================== *)
(** ** Further properties of the resolver *)

Lemma all_weaken (p q : ascii -> bool) (s : string) :
  (forall c, p c = true -> q c = true) -> all p s = true -> all q s = true.
Proof.
  intros W. induction s as [|c s IH]; simpl; auto.
  intros H. apply andb_true_iff in H as [Hc Hs]. rewrite (W c Hc), IH; auto.
Qed.

Lemma not_space_dot (c : ascii) : not_space c = true -> dot c = true.
Proof. destruct c as [[] [] [] [] [] [] [] []]; vm_compute; congruence. Qed.

Lemma id_char_not_space (c : ascii) : id_char c = true -> not_space c = true.
Proof. destruct c as [[] [] [] [] [] [] [] []]; vm_compute; congruence. Qed.

Lemma exec_here (r : regex) (s : string) (m : result) :
  match_here r s = Some m -> exec r s = Some m.
Proof. intros M. destruct s; cbn [exec]; rewrite M; reflexivity. Qed.

Lemma exec_app_l (r : regex) (a s : string) :
  exec r s <> None -> exec r (a ++ s) <> None.
Proof.
  intros H. destruct (exec r s) as [m|] eqn:E; [|congruence].
  apply exec_sound in E as (n & (pre & post & -> & L & W) & _).
  apply (exec_some r _ (String.length (a ++ pre)) (m0 m)).
  exists (a ++ pre), post. rewrite append_assoc. auto.
Qed.

Lemma idPattern1_short_link (u post : string) :
  String.length u = 11%nat -> all id_char u = true ->
  exec idPattern1 ("youtu.be/" ++ u ++ post) <> None.
Proof.
  intros L P.
  rewrite (exec_here idPattern1 _ {| m0 := "youtu.be/" ++ u; m1 := Some u |});
    [discriminate|].
  apply idPattern1_here; [simpl; auto | apply is_video_id_intro; auto].
Qed.

Lemma idPattern2_watch_link (mid u post : string) :
  all not_space mid = true ->
  String.length u = 11%nat -> all id_char u = true ->
  exec idPattern2 ("youtube.com/watch?" ++ mid ++ "v=" ++ u ++ post) <> None.
Proof.
  intros M L P.
  assert (W : lang idPattern2 ("youtube.com/watch?" ++ mid ++ "v=" ++ u)).
  { unfold idPattern2. apply lang_Seq; [apply lang_Lit|].
    apply lang_Seq;
      [apply lang_Star, (all_weaken not_space dot); [exact not_space_dot | exact M]|].
    apply lang_Seq; [apply lang_Lit|]. apply lang_Group, lang_Class; auto. }
  pose proof (match_here_complete idPattern2 _ post W) as H.
  repeat rewrite append_assoc in H.
  destruct (match_here idPattern2 _) as [m|] eqn:E; [|congruence].
  rewrite (exec_here _ _ _ E). discriminate.
Qed.

(** A word of a URL pattern holds a word of an identifier pattern. *)
Lemma url_span_matches (pattern : regex) (span : string) (c : option string) :
  In pattern urlPatterns -> derives pattern span None c ->
  exec idPattern1 span <> None \/ exec idPattern2 span <> None.
Proof.
  intros [<- | [<- | [<- | []]]] D; invert_derives; repeat rewrite append_assoc;
    first
      [ solve [ left;
                repeat first [ apply idPattern1_short_link; assumption
                             | apply exec_app_l ] ]
      | solve [ right;
                repeat first [ apply idPattern2_watch_link; assumption
                             | apply exec_app_l ] ] ].
Qed.

Lemma extractVideoId_of_match (s : string) :
  exec idPattern1 s <> None \/ exec idPattern2 s <> None ->
  exists id, extractVideoId s = Some id.
Proof.
  intros H. unfold extractVideoId, idPatterns. cbn [first_match].
  destruct (exec idPattern1 s) as [m|] eqn:E1.
  - apply exec_sound in E1 as (n & _ & (pre & post & _ & _ & D) & _).
    apply idPatterns_capture in D as (id & -> & _); [eauto | simpl; auto].
  - destruct (exec idPattern2 s) as [m|] eqn:E2.
    + apply exec_sound in E2 as (n & _ & (pre & post & _ & _ & D) & _).
      apply idPatterns_capture in D as (id & -> & _); [eauto | simpl; auto].
    + destruct H; congruence.
Qed.

(** Every URL that [extractUrlFromCommand] finds is one that
    [extractVideoId] resolves. *)
Lemma extracted_url_resolves (command span : string) :
  extractUrlFromCommand command = Some span ->
  truthy span = true /\ exists id, extractVideoId span = Some id.
Proof.
  unfold extractUrlFromCommand.
  destruct (first_match_spec urlPatterns command (fun m => Some (m0 m)) None)
    as [(i & pattern & m & N & _ & E & ->) | (_ & ->)]; [|discriminate].
  intros [= <-].
  apply exec_sound in E as (n & _ & (pre & post & _ & _ & D) & _).
  pose proof (nth_error_In _ _ N) as I. split.
  - destruct (urlPatterns_capture pattern (m0 m) (m1 m) I D)
      as (id & _ & V & (a & b & Sub) & _).
    rewrite Sub. destruct a; [|reflexivity].
    destruct id; [discriminate | reflexivity].
  - apply extractVideoId_of_match. eapply url_span_matches; eauto.
Qed.

(** A URL that [extractUrlFromCommand] finds is a word of a URL pattern
    that occurs in the command. *)
Lemma extracted_url_occurs (command span : string) :
  extractUrlFromCommand command = Some span ->
  exists pattern n, In pattern urlPatterns /\ occurs pattern command n span.
Proof.
  unfold extractUrlFromCommand.
  destruct (first_match_spec urlPatterns command (fun m => Some (m0 m)) None)
    as [(i & pattern & m & N & _ & E & ->) | (_ & ->)]; [|discriminate].
  intros [= <-].
  apply exec_sound in E as (n & O & _).
  exists pattern, n. split; [eapply nth_error_In; eauto | exact O].
Qed.

(** Without a word of a URL pattern in it, a command has no URL. *)
Lemma no_url_without_pattern (command : string) :
  (forall pattern, In pattern urlPatterns ->
                   forall n u, ~ occurs pattern command n u) <->
  extractUrlFromCommand command = None.
Proof.
  split.
  - intros No. destruct (extractUrlFromCommand command) as [span|] eqn:E; auto.
    exfalso. apply extracted_url_occurs in E as (pattern & n & I & O).
    eapply No; eauto.
  - unfold extractUrlFromCommand.
    destruct (first_match_spec urlPatterns command (fun m => Some (m0 m)) None)
      as [(i & pattern & m & N & _ & _ & ->) | (Nothing & _)]; [discriminate|].
    intros _ pattern I. apply exec_none. auto.
Qed.

(* ================================================================== *)
(** ** Further properties of the facade: the natural-language tool *)

Section Outcomes.
Variable localeCompare : string -> string -> Z.
Variable fetchTranscript :
  list (string * string) -> string -> string -> string + list Caption.t.

(** The reports of [addYouTubeVideo] for a reference that resolves. *)
Lemma add_resolved_reports (args : add_args) (id : string) (st : server) :
  extractVideoId (url args) = Some id ->
  let r := addYouTubeVideo fetchTranscript args st in
  fst r = AlreadyLoaded id
  \/ (exists message, fst r = ProviderError id message)
  \/ (exists u n l d, fst r = Loaded id u n l d).
Proof.
  intros E. cbv zeta. destruct (JsMap.has id (videos st)) eqn:H.
  - left. rewrite (add_present fetchTranscript args id st E H). reflexivity.
  - destruct (fetchTranscript (fetched st) id (default "en" (language args)))
      as [message | captions] eqn:F.
    + right. left. rewrite (add_failed fetchTranscript args id message st E H F).
      exists message. reflexivity.
    + right. right. rewrite (add_absent fetchTranscript args id st captions E H F).
      cbn [fst]. do 4 eexists. reflexivity.
Qed.

(** X1.  [transcribeFromCommand] reports UrlNotFound exactly when no URL
    pattern has a word in the command, and changes nothing then.  Otherwise
    the URL found is a word of a URL pattern that occurs in the command, and
    the call is [addYouTubeVideo] on that URL, with the language of the
    command or [en]; that URL always resolves to an identifier, so the
    report is AlreadyLoaded, Loaded or ProviderError for that identifier and
    never InvalidReference. *)
Theorem transcribeFromCommand_outcomes (args : transcribe_args) (st : server) :
  let r := transcribeFromCommand fetchTranscript args st in
  ((exists c, fst r = UrlNotFound c)
   <-> (forall pattern, In pattern urlPatterns ->
                        forall n u, ~ occurs pattern (command args) n u))
  /\ match extractUrlFromCommand (command args) with
     | None =>
         r = (UrlNotFound (command args), st)
         /\ (forall pattern, In pattern urlPatterns ->
                             forall n u, ~ occurs pattern (command args) n u)
     | Some span =>
         (exists pattern n,
             In pattern urlPatterns /\ occurs pattern (command args) n span)
         /\ r = addYouTubeVideo fetchTranscript
                  {| url := span; language := Some (default "en" (t_language args)) |} st
         /\ (exists id,
               extractVideoId span = Some id
               /\ is_video_id id = true
               /\ (fst r = AlreadyLoaded id
                   \/ (exists message, fst r = ProviderError id message)
                   \/ (exists u n l d, fst r = Loaded id u n l d)))
         /\ (forall u, fst r <> InvalidReference u)
         /\ (forall c, fst r <> UrlNotFound c)
     end.
Proof.
  cbv zeta.
  assert (Cases :
    match extractUrlFromCommand (command args) with
    | None => transcribeFromCommand fetchTranscript args st
              = (UrlNotFound (command args), st)
    | Some span =>
        transcribeFromCommand fetchTranscript args st
        = addYouTubeVideo fetchTranscript
            {| url := span; language := Some (default "en" (t_language args)) |} st
        /\ exists id,
             extractVideoId span = Some id
             /\ (fst (transcribeFromCommand fetchTranscript args st) = AlreadyLoaded id
                 \/ (exists message,
                       fst (transcribeFromCommand fetchTranscript args st)
                       = ProviderError id message)
                 \/ (exists u n l d,
                       fst (transcribeFromCommand fetchTranscript args st)
                       = Loaded id u n l d))
    end).
  { unfold transcribeFromCommand.
    destruct (extractUrlFromCommand (command args)) as [span|] eqn:E; [|reflexivity].
    destruct (extracted_url_resolves _ _ E) as (T & id & R). rewrite T. cbn [negb].
    split; [reflexivity|]. exists id. split; [exact R|].
    exact (add_resolved_reports
             {| url := span; language := Some (default "en" (t_language args)) |}
             id st R). }
  pose proof (no_url_without_pattern (command args)) as NoUrl.
  destruct (extractUrlFromCommand (command args)) as [span|] eqn:E.
  - destruct Cases as (Same & id & R & Reports).
    assert (NotUrl : forall c, fst (transcribeFromCommand fetchTranscript args st)
                               <> UrlNotFound c).
    { intros c. destruct Reports as [-> | [(m & ->) | (a & b & c' & d & ->)]];
        discriminate. }
    split; [split|].
    + intros (c & Rc). exfalso. exact (NotUrl c Rc).
    + intros No. apply NoUrl in No. discriminate.
    + split; [apply extracted_url_occurs; exact E|].
      split; [exact Same|]. split; [|split].
      * exists id. split; auto. split; [eapply extractVideoId_valid; eauto | exact Reports].
      * intros u. destruct Reports as [-> | [(m & ->) | (a & b & c & d & ->)]];
          discriminate.
      * exact NotUrl.
  - rewrite Cases. cbn [fst]. split; [split|].
    + intros _. apply NoUrl. reflexivity.
    + intros _. eexists. reflexivity.
    + split; [reflexivity|]. apply NoUrl. reflexivity.
Qed.

(** X2.  An error report of [addYouTubeVideo] leaves the store as it was.
    A reference that does not resolve is reported without a call to the
    provider.  A failure of the provider is reported with its message after
    one call, and nothing is kept of it: the identifier is still not in the
    store, and the next call for it calls the provider again. *)
Theorem addYouTubeVideo_failure_keeps_store (args : add_args) (st : server) :
  let r := addYouTubeVideo fetchTranscript args st in
  (is_error (fst r) = true -> videos (snd r) = videos st)
  /\ (extractVideoId (url args) = None -> r = (InvalidReference (url args), st))
  /\ (forall id message,
        fst r = ProviderError id message ->
        extractVideoId (url args) = Some id
        /\ fetchTranscript (fetched st) id (default "en" (language args)) = inl message
        /\ fetched (snd r) = (fetched st ++ [(id, default "en" (language args))])%list
        /\ JsMap.has id (videos (snd r)) = false
        /\ (forall args',
              extractVideoId (url args') = Some id ->
              fetched (snd (addYouTubeVideo fetchTranscript args' (snd r)))
              = (fetched (snd r) ++ [(id, default "en" (language args'))])%list)).
Proof.
  cbv zeta. destruct (extractVideoId (url args)) as [id|] eqn:E.
  - destruct (JsMap.has id (videos st)) eqn:H.
    + rewrite (add_present fetchTranscript args id st E H). cbn.
      repeat split; try discriminate.
    + destruct (fetchTranscript (fetched st) id (default "en" (language args)))
        as [message | captions] eqn:F.
      * rewrite (add_failed fetchTranscript args id message st E H F). cbn [fst snd].
        split; [reflexivity|]. split; [discriminate|].
        intros id' message' [= <- <-]. cbn [videos fetched].
        repeat split; auto.
        intros args' E'.
        set (st1 := {| videos := videos st;
                       fetched := (fetched st ++ [(id, default "en" (language args))])%list |}).
        destruct (fetchTranscript (fetched st1) id (default "en" (language args')))
          as [m2 | c2] eqn:F2.
        -- rewrite (add_failed fetchTranscript args' id m2 st1 E' H F2). reflexivity.
        -- rewrite (add_absent fetchTranscript args' id st1 c2 E' H F2). reflexivity.
      * rewrite (add_absent fetchTranscript args id st captions E H F). cbn.
        repeat split; try discriminate.
  - rewrite (add_unresolved fetchTranscript args st E). cbn.
    repeat split; try discriminate.
Qed.

End Outcomes.

(* ================================================================== *)
(** ** Further properties of the facade: what a call can change *)

Section Frame.
Variable localeCompare : string -> string -> Z.
Variable fetchTranscript :
  list (string * string) -> string -> string -> string + list Caption.t.

Lemma searchTranscripts_state (args : search_args) (st : server) :
  snd (searchTranscripts localeCompare args st) = st.
Proof.
  unfold searchTranscripts, bind, get_videos, ret.
  destruct (JsMap.size (videos st) =? 0)%nat; auto.
  destruct (query args) as [q|]; auto.
  destruct (negb (truthy (trim q))); auto.
  destruct (List.length _ =? 0)%nat; auto.
Qed.

Lemma listVideos_state (st : server) : snd (listVideos st) = st.
Proof.
  unfold listVideos, bind, get_videos, ret.
  destruct (JsMap.size (videos st) =? 0)%nat; auto.
Qed.

Lemma getVideoTranscript_state (args : transcript_args) (st : server) :
  snd (getVideoTranscript args st) = st.
Proof.
  unfold getVideoTranscript, bind, get_videos, ret.
  destruct (JsMap.get _ _); auto. destruct (String.eqb _ _); auto.
Qed.

Lemma transcribe_cases (args : transcribe_args) (st : server) :
  snd (transcribeFromCommand fetchTranscript args st) = st
  \/ exists args', transcribeFromCommand fetchTranscript args st
                   = addYouTubeVideo fetchTranscript args' st.
Proof.
  unfold transcribeFromCommand.
  destruct (extractUrlFromCommand (command args)) as [u|]; auto.
  destruct (negb (truthy u)); eauto.
Qed.

Lemma frame_same (req : request) (st : server) : frame req st st.
Proof.
  unfold frame. repeat split; auto.
  - intros; congruence.
  - intros; congruence.
Qed.

Lemma frame_add (req : request) (args : add_args) (st : server) :
  may_fetch req = true ->
  frame req st (snd (addYouTubeVideo fetchTranscript args st)).
Proof.
  intros M.
  destruct (add_states fetchTranscript args st)
    as [-> | (id & lang & V & H & F & [S | (v & I & S)])].
  - apply frame_same.
  - unfold frame. rewrite S. repeat split; eauto 10; intros; congruence.
  - apply has_false_get in H as G.
    unfold frame. rewrite S. split; [|split; [|split]].
    + right. split; auto. eauto 10.
    + intros k w w' Gk Gk'. rewrite get_set_other in Gk' by congruence. congruence.
    + intros k w Gk Gk'. rewrite get_set_other in Gk' by congruence. congruence.
    + rewrite (set_absent id v _ G). unfold JsMap.size. rewrite length_app. simpl. lia.
Qed.

End Frame.

(** X3.  Whatever the tool and its arguments, a call from a state with the
    invariant of the store: leaves the state as it is when the tool is
    [search_transcripts], [list_videos] or [get_video_transcript]; calls the
    provider at most once, and only from [transcribe_youtube] or
    [add_youtube_video] for a valid identifier that is not stored; never
    changes a stored record; makes a record disappear only as the removal
    of its identifier or as a clear; and adds at most one record. *)
Theorem callTool_frame
        (localeCompare : string -> string -> Z)
        (fetchTranscript : list (string * string) -> string -> string -> string + list Caption.t)
        (req : request) (st : server) :
  store_ok (videos st) = true ->
  let st' := snd (callTool localeCompare fetchTranscript req st) in
  (read_only req = true -> st' = st) /\ frame req st st'.
Proof.
  intros Ok. cbv zeta.
  destruct req as [args|args|args| |args|args| ]; cbn [callTool read_only].
  - split; [discriminate|].
    destruct (transcribe_cases fetchTranscript args st) as [-> | (args' & ->)];
      [apply frame_same | apply frame_add; reflexivity].
  - split; [discriminate|]. apply frame_add. reflexivity.
  - rewrite searchTranscripts_state. split; auto. apply frame_same.
  - rewrite listVideos_state. split; auto. apply frame_same.
  - rewrite getVideoTranscript_state. split; auto. apply frame_same.
  - split; [discriminate|]. destruct args as [id].
    unfold removeVideo, bind, get_videos, ret, update_videos. cbn [r_videoId].
    destruct (JsMap.get id (videos st)) as [v|] eqn:G; [|apply frame_same].
    cbn [snd]. unfold frame. cbn [videos fetched].
    destruct (store_ok_elim _ Ok) as [D _].
    pose proof (delete_filter id (videos st) D) as Hd.
    split; [auto|]. split; [|split].
    + intros k w w' Gk Gk'. rewrite Hd in Gk'.
      destruct (String.eqb_spec k id) as [-> | N].
      * rewrite get_filter_same in Gk'. discriminate.
      * rewrite get_filter_other in Gk' by auto. congruence.
    + intros k w Gk Gk'. left. rewrite Hd in Gk'.
      destruct (String.eqb_spec k id) as [-> | N]; auto.
      rewrite get_filter_other in Gk' by auto. congruence.
    + rewrite <- (delete_size id v _ G). lia.
  - split; [discriminate|]. unfold frame. cbn. repeat split; auto.
    + intros; discriminate.
    + unfold JsMap.size. simpl. lia.
Qed.

(** The theorem on the sample server: removing a video touches neither the
    other record nor the log of the provider. *)
Lemma callTool_frame_witness :
  store_ok (videos sample_server) = true
  /\ frame (remove_video {| r_videoId := "P2DfG5JEAmA" |}) sample_server
       (snd (callTool collationCompare sample_provider
               (remove_video {| r_videoId := "P2DfG5JEAmA" |}) sample_server)).
Proof.
  split; [reflexivity|].
  exact (proj2 (callTool_frame collationCompare sample_provider
                  (remove_video {| r_videoId := "P2DfG5JEAmA" |}) sample_server
                  eq_refl)).
Defined.

(* ================================================================== *)
(** ** Further properties of the facade: the records of a server *)

Section Records.
Variable localeCompare : string -> string -> Z.
Variable fetchTranscript :
  list (string * string) -> string -> string -> string + list Caption.t.

Lemma well_formed_more (st : server) (log : list (string * string)) :
  well_formed st ->
  well_formed {| videos := videos st; fetched := (fetched st ++ log)%list |}.
Proof.
  intros W k v G. cbn [videos fetched] in *.
  destruct (W k v G) as (A & B & C & D & E & F & I).
  repeat split; auto. apply in_or_app. auto.
Qed.

Lemma add_well_formed (args : add_args) (st : server) :
  well_formed st ->
  well_formed (snd (addYouTubeVideo fetchTranscript args st)).
Proof.
  intros W. destruct (extractVideoId (url args)) as [id|] eqn:E.
  - destruct (JsMap.has id (videos st)) eqn:H.
    + rewrite (add_present fetchTranscript args id st E H). exact W.
    + destruct (fetchTranscript (fetched st) id (default "en" (language args)))
        as [message | captions] eqn:F.
      * rewrite (add_failed fetchTranscript args id message st E H F).
        apply (well_formed_more st _ W).
      * rewrite (add_absent fetchTranscript args id st captions E H F).
        cbv zeta. cbn [snd]. intros k v G. cbn [videos fetched] in *.
        destruct (String.eqb_spec k id) as [-> | N].
        -- rewrite get_set_same in G. injection G as <-. cbn.
           repeat split; auto.
           ++ eapply extractVideoId_valid; eauto.
           ++ apply in_or_app. right. left. reflexivity.
        -- rewrite get_set_other in G by auto.
           destruct (W k v G) as (A & B & C & D & E' & F' & I).
           repeat split; auto. apply in_or_app. auto.
  - rewrite (add_unresolved fetchTranscript args st E). exact W.
Qed.

Lemma callTool_well_formed (req : request) (st : server) :
  store_ok (videos st) = true -> well_formed st ->
  well_formed (snd (callTool localeCompare fetchTranscript req st)).
Proof.
  intros Ok W. destruct req as [args|args|args| |args|args| ]; cbn [callTool].
  - destruct (transcribe_cases fetchTranscript args st) as [-> | (args' & ->)]; auto.
    apply add_well_formed; auto.
  - apply add_well_formed; auto.
  - rewrite searchTranscripts_state. auto.
  - rewrite listVideos_state. auto.
  - rewrite getVideoTranscript_state. auto.
  - unfold removeVideo, bind, get_videos, ret, update_videos.
    destruct (JsMap.get (r_videoId args) (videos st)) as [v|] eqn:G; auto.
    cbn [snd]. intros k w Gk. cbn [videos fetched] in *.
    destruct (store_ok_elim _ Ok) as [D _].
    rewrite (delete_filter _ _ D) in Gk.
    destruct (String.eqb_spec k (r_videoId args)) as [-> | N].
    + rewrite get_filter_same in Gk. discriminate.
    + rewrite get_filter_other in Gk by auto. apply (W k w Gk).
  - intros k w Gk. discriminate.
Qed.

End Records.

(** X4.  In every state that a server reaches from its creation, by any
    sequence of tool calls and whatever the provider answers: the keys of
    the store are distinct video identifiers; the record under a key has
    that key as [id], the watch URL of the key as [url] and [Video] followed
    by the key as [title]; its [transcriptLength] is the length of its
    transcript and its [totalDuration] the end of its last entry; and the
    provider was called for the key with the language of the record. *)
Theorem reachable_records_well_formed
        (localeCompare : string -> string -> Z)
        (fetchTranscript : list (string * string) -> string -> string -> string + list Caption.t)
        (reqs : list request) :
  let st := run_calls localeCompare fetchTranscript reqs initial in
  store_ok (videos st) = true /\ well_formed st.
Proof.
  cbv zeta.
  assert (G : forall st, store_ok (videos st) = true /\ well_formed st ->
                         store_ok (videos (run_calls localeCompare fetchTranscript reqs st))
                         = true
                         /\ well_formed (run_calls localeCompare fetchTranscript reqs st)).
  { induction reqs as [|req reqs IH]; intros st [Ok W]; cbn [run_calls]; auto.
    apply IH. split.
    - apply callTool_ok; auto.
    - apply callTool_well_formed; auto. }
  apply G. split; [reflexivity|]. intros k v H. discriminate.
Qed.

(* ================================================================== *)
(** ** Further properties of the facade: loading, listing, removing *)

Lemma totalDurationOf_nil : totalDurationOf [] = 0.
Proof. reflexivity. Qed.

Lemma totalDurationOf_snoc (l : list Entry.t) (e : Entry.t) :
  totalDurationOf (l ++ [e])
  = Entry.start e + JsNumber.or_zero (Entry.duration e).
Proof.
  unfold totalDurationOf. rewrite length_app. simpl.
  destruct (Nat.ltb_spec 0 (List.length l + 1)); [|lia].
  replace (List.length l + 1 - 1)%nat with (List.length l) by lia.
  rewrite nth_error_app2 by lia. rewrite Nat.sub_diag. reflexivity.
Qed.

Lemma delete_snoc_absent {V : Type} (k : string) (v : V) (m : JsMap.t V) :
  JsMap.get k m = None -> JsMap.delete k (m ++ [(k, v)])%list = m.
Proof.
  induction m as [|[k' v'] m IH]; simpl.
  - rewrite String.eqb_refl. reflexivity.
  - destruct (String.eqb k' k); [discriminate|]. intros G. rewrite IH; auto.
Qed.

Lemma get_snoc_absent {V : Type} (k : string) (v : V) (m : JsMap.t V) :
  JsMap.get k m = None -> JsMap.get k (m ++ [(k, v)])%list = Some v.
Proof. intros G. rewrite <- (set_absent k v m G). apply get_set_same. Qed.

Section Loading.
Variable localeCompare : string -> string -> Z.
Variable fetchTranscript :
  list (string * string) -> string -> string -> string + list Caption.t.

(** X5.  When the reference resolves to an identifier that is not stored
    and the provider answers, [addYouTubeVideo] calls the provider once,
    with the language asked or [en], and puts the new record last in the
    store: [listVideos] then shows the records of before, in their order,
    followed by the new one.  The report gives the number of captions and
    the total duration, which is the end of the last caption in seconds
    (start plus duration, a zero duration counting for nothing), or zero
    without captions. *)
Theorem addYouTubeVideo_loads_last
        (args : add_args) (id : string) (st : server) (captions : list Caption.t) :
  extractVideoId (url args) = Some id ->
  JsMap.has id (videos st) = false ->
  fetchTranscript (fetched st) id (default "en" (language args)) = inr captions ->
  let r := addYouTubeVideo fetchTranscript args st in
  let lang := default "en" (language args) in
  exists v total,
    fst r = Loaded id ("https://www.youtube.com/watch?v=" ++ id)
              (List.length captions) lang total
    /\ videos (snd r) = (videos st ++ [(id, v)])%list
    /\ fetched (snd r) = (fetched st ++ [(id, lang)])%list
    /\ listVideos (snd r) = (VideoList (map snd (videos st) ++ [v]), snd r)
    /\ Video.language v = lang
    /\ Video.transcriptLength v = List.length captions
    /\ Video.totalDuration v = total
    /\ (captions = [] -> total = 0)
    /\ (forall cs c,
          captions = (cs ++ [c])%list ->
          total = Caption.offset c / 1000
                  + JsNumber.or_zero (Caption.duration c / 1000)).
Proof.
  intros E H F. cbv zeta.
  rewrite (add_absent fetchTranscript args id st captions E H F). cbv zeta.
  cbn [fst snd videos fetched].
  apply has_false_get in H as G. rewrite (set_absent id _ _ G).
  eexists. eexists. split; [rewrite length_map; reflexivity|].
  split; [reflexivity|]. split; [reflexivity|]. split; [|split; [|split; [|split; [|split]]]].
  - unfold listVideos, bind, get_videos, ret. cbn [videos].
    unfold JsMap.size. rewrite length_app. simpl.
    replace (List.length (videos st) + 1 =? 0)%nat with false
      by (symmetry; apply Nat.eqb_neq; lia).
    rewrite map_app. reflexivity.
  - reflexivity.
  - cbn. apply length_map.
  - reflexivity.
  - intros ->. reflexivity.
  - intros cs c ->. rewrite map_app. simpl map. apply totalDurationOf_snoc.
Qed.

(** X6.  Loading a video and then removing it gives back the store of
    before the two calls, records and order; the report names the title and
    the identifier of the record.  The log of the provider keeps the call,
    the identifier is no longer found, and adding it again calls the
    provider again. *)
Theorem add_then_remove_restores
        (args : add_args) (id : string) (st : server) (captions : list Caption.t) :
  extractVideoId (url args) = Some id ->
  JsMap.has id (videos st) = false ->
  fetchTranscript (fetched st) id (default "en" (language args)) = inr captions ->
  let st1 := snd (addYouTubeVideo fetchTranscript args st) in
  let r := removeVideo {| r_videoId := id |} st1 in
  fst r = Removed ("Video " ++ id) id
  /\ videos (snd r) = videos st
  /\ fetched (snd r) = (fetched st ++ [(id, default "en" (language args))])%list
  /\ (forall fmt,
        fst (getVideoTranscript {| videoId := id; format := fmt |} (snd r))
        = TranscriptNotFound id)
  /\ (forall args',
        extractVideoId (url args') = Some id ->
        fetched (snd (addYouTubeVideo fetchTranscript args' (snd r)))
        = (fetched (snd r) ++ [(id, default "en" (language args'))])%list).
Proof.
  intros E H F. cbv zeta.
  rewrite (add_absent fetchTranscript args id st captions E H F). cbv zeta.
  cbn [snd]. apply has_false_get in H as G. rewrite (set_absent id _ _ G).
  unfold removeVideo, bind, get_videos, ret, update_videos. cbn [r_videoId videos fetched].
  rewrite (get_snoc_absent id _ _ G). cbn [fst snd videos fetched Video.title].
  rewrite (delete_snoc_absent id _ _ G).
  split; [reflexivity|]. split; [reflexivity|]. split; [reflexivity|]. split.
  - intros fmt. unfold getVideoTranscript, bind, get_videos, ret.
    cbn [videoId videos]. rewrite G. reflexivity.
  - intros args' E'.
    set (st2 := {| videos := videos st;
                   fetched := (fetched st ++ [(id, default "en" (language args))])%list |}).
    destruct (fetchTranscript (fetched st2) id (default "en" (language args')))
      as [m2 | c2] eqn:F2.
    + rewrite (add_failed fetchTranscript args' id m2 st2 E' H F2). reflexivity.
    + rewrite (add_absent fetchTranscript args' id st2 c2 E' H F2). reflexivity.
Qed.

(** X7.  On an empty store every search reports EmptyStore, whatever the
    query, blank and absent ones included: the check of the store comes
    before the check of the query.  [listVideos] reports that there are no
    videos, [getVideoTranscript] and [removeVideo] report NotFound for any
    identifier, and [clearAllVideos] reports zero videos; none of them
    changes the state. *)
Theorem empty_store_reports (st : server) :
  JsMap.size (videos st) = 0%nat ->
  (forall args, searchTranscripts localeCompare args st = (EmptyStore, st))
  /\ listVideos st = (NoVideos, st)
  /\ (forall args,
        getVideoTranscript args st = (TranscriptNotFound (videoId args), st))
  /\ (forall args, removeVideo args st = (RemoveNotFound (r_videoId args), st))
  /\ clearAllVideos st = (Cleared 0, st).
Proof.
  intros Z. destruct st as [m log]. cbn [videos] in Z.
  destruct m; [|discriminate]. repeat split.
Qed.

End Loading.

(** The theorem for the first video of the sample provider, on a new
    server. *)
Lemma addYouTubeVideo_loads_last_witness :
  extractVideoId "dQw4w9WgXcQ" = Some "dQw4w9WgXcQ"
  /\ JsMap.has "dQw4w9WgXcQ" (videos initial) = false
  /\ exists v total,
       fst (addYouTubeVideo sample_provider
              {| url := "dQw4w9WgXcQ"; language := None |} initial)
       = Loaded "dQw4w9WgXcQ" "https://www.youtube.com/watch?v=dQw4w9WgXcQ" 2 "en" total
       /\ videos (snd (addYouTubeVideo sample_provider
                         {| url := "dQw4w9WgXcQ"; language := None |} initial))
          = [("dQw4w9WgXcQ", v)]
       /\ total = 2000 / 1000 + JsNumber.or_zero (2500 / 1000).
Proof.
  split; [reflexivity|]. split; [reflexivity|].
  destruct (addYouTubeVideo_loads_last sample_provider
              {| url := "dQw4w9WgXcQ"; language := None |} "dQw4w9WgXcQ" initial
              [ caption "Never gonna give you up" 0 2000;
                caption "never gonna let you down" 2000 2500 ]
              eq_refl eq_refl eq_refl)
    as (v & total & R & S & _ & _ & _ & _ & _ & _ & T).
  exists v, total. split; [exact R|]. split; [exact S|].
  exact (T [caption "Never gonna give you up" 0 2000]
           (caption "never gonna let you down" 2000 2500) eq_refl).
Defined.

(** The theorem for the first video of the sample provider, on a new
    server. *)
Lemma add_then_remove_restores_witness :
  extractVideoId "dQw4w9WgXcQ" = Some "dQw4w9WgXcQ"
  /\ JsMap.has "dQw4w9WgXcQ" (videos initial) = false
  /\ videos (snd (removeVideo {| r_videoId := "dQw4w9WgXcQ" |}
                    (snd (addYouTubeVideo sample_provider
                            {| url := "dQw4w9WgXcQ"; language := None |} initial))))
     = videos initial.
Proof.
  split; [reflexivity|]. split; [reflexivity|].
  exact (proj1 (proj2 (add_then_remove_restores sample_provider
                         {| url := "dQw4w9WgXcQ"; language := None |} "dQw4w9WgXcQ"
                         initial
                         [ caption "Never gonna give you up" 0 2000;
                           caption "never gonna let you down" 2000 2500 ]
                         eq_refl eq_refl eq_refl))).
Defined.

(** The theorem on a new server, for a blank query. *)
Lemma empty_store_reports_witness :
  JsMap.size (videos initial) = 0%nat
  /\ searchTranscripts collationCompare
       {| query := Some " "; videoIds := None; contextWords := None |} initial
     = (EmptyStore, initial)
  /\ clearAllVideos initial = (Cleared 0, initial).
Proof.
  split; [reflexivity|].
  pose proof (empty_store_reports collationCompare initial eq_refl) as H.
  split; [apply (proj1 H) | apply (proj2 (proj2 (proj2 (proj2 H))))].
Defined.

(** X8.  [clearAllVideos] reports the number of records, empties the store
    and keeps the log of the provider.  Nothing of the records is kept: a
    video that was stored is fetched again when it is added after the
    clear. *)
Theorem clearAllVideos_forgets
        (fetchTranscript : list (string * string) -> string -> string -> string + list Caption.t)
        (st : server) :
  let r := clearAllVideos st in
  fst r = Cleared (JsMap.size (videos st))
  /\ videos (snd r) = []
  /\ fetched (snd r) = fetched st
  /\ (forall k, JsMap.has k (videos (snd r)) = false)
  /\ (forall args id,
        extractVideoId (url args) = Some id ->
        fetched (snd (addYouTubeVideo fetchTranscript args (snd r)))
        = (fetched st ++ [(id, default "en" (language args))])%list)
  /\ fst (clearAllVideos (snd r)) = Cleared 0.
Proof.
  cbv zeta. unfold clearAllVideos, bind, get_videos, ret, update_videos.
  cbn [fst snd videos fetched].
  repeat split.
  intros args id E.
  set (st2 := {| videos := JsMap.empty; fetched := fetched st |}).
  assert (H : JsMap.has id (videos st2) = false) by reflexivity.
  destruct (fetchTranscript (fetched st2) id (default "en" (language args)))
    as [m2 | c2] eqn:F2.
  - rewrite (add_failed fetchTranscript args id m2 st2 E H F2). reflexivity.
  - rewrite (add_absent fetchTranscript args id st2 c2 E H F2). reflexivity.
Qed.

(* ================================================================== *)
(** ** Further properties of the search engine *)

Lemma scan_nil (transcript : list Entry.t) (queryLower : string) (cw : Z)
      (entries : list Entry.t) :
  forall start,
    scan transcript queryLower cw start entries = []
    <-> forall e, In e entries ->
                  includes (toLowerCase (Entry.text e)) queryLower = false.
Proof.
  induction entries as [|e es IH]; intros start; cbn [scan].
  - split; [intros _ e [] | reflexivity].
  - destruct (includes (toLowerCase (Entry.text e)) queryLower) eqn:I.
    + split; [discriminate|]. intros H. specialize (H e (or_introl eq_refl)). congruence.
    + simpl. rewrite IH. split.
      * intros H x [<- | Ix]; auto.
      * intros H x Ix. apply H. right. auto.
Qed.

Lemma collect_app (loaded : JsMap.t Video.t) (q : string) (cw : Z)
      (ids1 ids2 : list string) :
  collect loaded q cw (ids1 ++ ids2)
  = (collect loaded q cw ids1 ++ collect loaded q cw ids2)%list.
Proof.
  induction ids1 as [|id ids1 IH]; [reflexivity|].
  cbn [app]. rewrite (collect_cons _ _ _ id (ids1 ++ ids2)), (collect_cons _ _ _ id ids1).
  rewrite IH, app_assoc. reflexivity.
Qed.

(** The elements of [allResults]. *)
Lemma collect_In (loaded : JsMap.t Video.t) (q : string) (cw : Z)
      (ids : list string) (r : Result.t) :
  In r (collect loaded q cw ids)
  <-> In (Result.videoId r) ids
      /\ exists v,
           JsMap.get (Result.videoId r) loaded = Some v
           /\ Result.videoUrl r = Video.url v
           /\ Result.videoTitle r = Video.title v
           /\ In (Result.found r) (searchInTranscript (Video.transcript v) q cw).
Proof.
  induction ids as [|id ids IH]; cbn [collect].
  - split; [intros [] | intros [[] _]].
  - destruct (JsMap.get id loaded) as [v|] eqn:G.
    + rewrite in_app_iff, IH, in_map_iff. split.
      * intros [(m & <- & Im) | (Ii & Rest)].
        -- cbn. split; [left; reflexivity|]. exists v. auto.
        -- split; [right; auto | exact Rest].
      * intros ([Ei | Ii] & w & Gw & U & T & Im).
        -- left. exists (Result.found r). rewrite <- Ei in Gw.
           assert (w = v) by congruence. subst w. split; auto.
           destruct r; cbn in *. congruence.
        -- right. split; auto. exists w. auto.
    + rewrite IH. split.
      * intros (Ii & Rest). split; [right; auto | exact Rest].
      * intros ([<- | Ii] & w & Gw & Rest); [congruence|].
        split; auto. exists w. auto.
Qed.

Lemma collect_nil (loaded : JsMap.t Video.t) (q : string) (cw : Z)
      (ids : list string) :
  collect loaded q cw ids = []
  <-> forall id v e,
        In id ids -> JsMap.get id loaded = Some v -> In e (Video.transcript v) ->
        ~ substring (toLowerCase q) (toLowerCase (Entry.text e)).
Proof.
  induction ids as [|id ids IH]; cbn [collect].
  - split; [intros _ id v e [] | reflexivity].
  - destruct (JsMap.get id loaded) as [v|] eqn:G.
    + split.
      * intros H. apply app_eq_nil in H as [H1 H2].
        apply map_eq_nil in H1. unfold searchInTranscript in H1.
        rewrite scan_nil in H1. rewrite IH in H2.
        intros id' v' e [<- | Ii] G' Ie.
        -- assert (v' = v) by congruence. subst v'.
           rewrite <- includes_substring. rewrite (H1 e Ie). discriminate.
        -- eapply H2; eauto.
      * intros H.
        assert (H1 : searchInTranscript (Video.transcript v) q cw = []).
        { unfold searchInTranscript. apply scan_nil. intros e Ie.
          destruct (includes _ _) eqn:I; auto.
          apply includes_substring in I. exfalso.
          eapply (H id v e); eauto. left; reflexivity. }
        rewrite H1. simpl. apply IH. intros id' v' e Ii. apply H. right; auto.
    + rewrite IH. split.
      * intros H id' v' e [<- | Ii] G' Ie; [congruence|]. eapply H; eauto.
      * intros H id' v' e Ii. apply H. right; auto.
Qed.

Section SearchReports.
Variable localeCompare : string -> string -> Z.

(** X9.  A list of matches that [searchTranscripts] reports is never
    empty, and it holds exactly the matches of the stored candidate videos:
    each element names a candidate identifier that is stored, carries the
    URL and the title of the stored record, and is a match of
    [searchInTranscript] in the transcript of that record; and every such
    match is in the list. *)
Theorem searchTranscripts_reports_exactly
        (args : search_args) (st : server) (q : string) (results : list Result.t) :
  fst (searchTranscripts localeCompare args st) = Matches q results ->
  let candidates := match videoIds args with
                    | Some ids => ids
                    | None => JsMap.keys (videos st)
                    end in
  query args = Some q
  /\ results <> []
  /\ forall r,
       In r results
       <-> In (Result.videoId r) candidates
           /\ exists v,
                JsMap.get (Result.videoId r) (videos st) = Some v
                /\ Result.videoUrl r = Video.url v
                /\ Result.videoTitle r = Video.title v
                /\ In (Result.found r)
                      (searchInTranscript (Video.transcript v) q
                         (default 5%Z (contextWords args))).
Proof.
  intros H. cbv zeta.
  apply searchTranscripts_matches_inv in H as (_ & Q & _ & -> & NE).
  split; auto. split; auto.
  intros r. rewrite <- collect_In. split.
  - apply Permutation_in, sort_perm.
  - apply Permutation_in, Permutation_sym, sort_perm.
Qed.

(** X10.  For a query that is not blank on a store that is not empty, the
    report is NoMatches exactly when no entry of a stored candidate video
    contains the query, cases set aside; otherwise it is a list of
    matches. *)
Theorem searchTranscripts_no_matches_iff
        (st : server) (q : string) (ids : option (list string)) (cw : option Z) :
  JsMap.size (videos st) <> 0%nat ->
  all is_space q = false ->
  let r := fst (searchTranscripts localeCompare
                  {| query := Some q; videoIds := ids; contextWords := cw |} st) in
  let candidates := match ids with
                    | Some l => l
                    | None => JsMap.keys (videos st)
                    end in
  ((exists searched, r = NoMatches q searched)
   <-> forall id v e,
         In id candidates -> JsMap.get id (videos st) = Some v ->
         In e (Video.transcript v) ->
         ~ substring (toLowerCase q) (toLowerCase (Entry.text e)))
  /\ ((exists searched, r = NoMatches q searched)
      \/ (exists results, r = Matches q results)).
Proof.
  intros N B. cbv zeta. rewrite searchTranscripts_valid by auto. cbv zeta. cbn [fst].
  rewrite <- collect_nil.
  destruct (Nat.eqb_spec (List.length (collect (videos st) q (default 5%Z cw)
             (match ids with
              | Some l => l
              | None => JsMap.keys (videos st)
              end))) 0) as [L | L].
  - apply length_zero_iff_nil in L. split; [|eauto]. split; eauto.
  - split; [|eauto]. split.
    + intros (s0 & H). discriminate.
    + intros H. rewrite H in L. contradiction.
Qed.

(** X11.  [searchTranscripts] searches the identifiers of [videoIds] one
    after the other without removing repetitions: with the list given
    twice over, every match is reported twice. *)
Theorem searchTranscripts_repeated_ids
        (st : server) (q : string) (ids : list string) (cw : option Z)
        (results : list Result.t) :
  fst (searchTranscripts localeCompare
         {| query := Some q; videoIds := Some ids; contextWords := cw |} st)
  = Matches q results ->
  exists results',
    fst (searchTranscripts localeCompare
           {| query := Some q; videoIds := Some (ids ++ ids)%list;
              contextWords := cw |} st)
    = Matches q results'
    /\ Permutation results' (results ++ results)
    /\ List.length results' = (2 * List.length results)%nat.
Proof.
  intros H.
  apply searchTranscripts_matches_inv in H as (N & _ & B & -> & NE).
  cbn [videoIds contextWords] in *.
  rewrite searchTranscripts_valid by auto. cbv zeta. cbn [fst].
  rewrite collect_app.
  set (found := collect (videos st) q (default 5%Z cw) ids) in *.
  assert (P : Permutation (JsArray.sort (compareResults localeCompare) (found ++ found))
                (JsArray.sort (compareResults localeCompare) found
                 ++ JsArray.sort (compareResults localeCompare) found)).
  { rewrite !sort_perm. reflexivity. }
  destruct (Nat.eqb_spec (List.length (found ++ found)) 0) as [L | L].
  - exfalso. apply NE. rewrite length_app in L.
    assert (L0 : List.length found = 0%nat) by lia.
    apply length_zero_iff_nil in L0. rewrite L0. reflexivity.
  - eexists. split; [reflexivity|]. split; [exact P|].
    rewrite (Permutation_length P), length_app. lia.
Qed.

End SearchReports.

(** The theorems on the sample server. *)
Lemma searchTranscripts_reports_exactly_witness :
  exists results,
    fst (searchTranscripts collationCompare
           {| query := Some "never"; videoIds := None; contextWords := None |}
           sample_server)
    = Matches "never" results
    /\ results <> [].
Proof.
  eexists. split; [vm_compute; reflexivity|].
  refine (proj1 (proj2 (searchTranscripts_reports_exactly collationCompare
                          {| query := Some "never"; videoIds := None;
                             contextWords := None |}
                          sample_server "never" _ _))).
  vm_compute. reflexivity.
Defined.

Lemma searchTranscripts_no_matches_iff_witness :
  JsMap.size (videos sample_server) <> 0%nat
  /\ all is_space "always" = false
  /\ fst (searchTranscripts collationCompare
            {| query := Some "always"; videoIds := None; contextWords := None |}
            sample_server)
     = NoMatches "always" "P2DfG5JEAmA, dQw4w9WgXcQ"
  /\ ((exists searched,
         fst (searchTranscripts collationCompare
                {| query := Some "always"; videoIds := None; contextWords := None |}
                sample_server)
         = NoMatches "always" searched)
      \/ (exists results,
            fst (searchTranscripts collationCompare
                   {| query := Some "always"; videoIds := None; contextWords := None |}
                   sample_server)
            = Matches "always" results)).
Proof.
  split; [discriminate|]. split; [reflexivity|]. split; [reflexivity|].
  exact (proj2 (searchTranscripts_no_matches_iff collationCompare sample_server
                  "always" None None ltac:(discriminate) eq_refl)).
Defined.

Lemma searchTranscripts_repeated_ids_witness :
  exists results results',
    fst (searchTranscripts collationCompare
           {| query := Some "never"; videoIds := Some ["dQw4w9WgXcQ"];
              contextWords := None |} sample_server)
    = Matches "never" results
    /\ fst (searchTranscripts collationCompare
              {| query := Some "never";
                 videoIds := Some ["dQw4w9WgXcQ"; "dQw4w9WgXcQ"];
                 contextWords := None |} sample_server)
       = Matches "never" results'
    /\ List.length results = 2%nat
    /\ List.length results' = 4%nat.
Proof.
  eexists.
  assert (H : fst (searchTranscripts collationCompare
                     {| query := Some "never"; videoIds := Some ["dQw4w9WgXcQ"];
                        contextWords := None |} sample_server)
              = Matches "never" _) by (vm_compute; reflexivity).
  destruct (searchTranscripts_repeated_ids collationCompare sample_server "never"
              ["dQw4w9WgXcQ"] None _ H) as (results' & R & _ & L).
  exists results'. split; [exact H|]. split; [exact R|]. split; [reflexivity | exact L].
Defined.

(* ================================================================== *)
(** ** Further properties of the search engine: the context *)

Lemma window_one {A : Type} (l : list A) (i : nat) (e : A) :
  nth_error l i = Some e -> window l i (S i) = [e].
Proof.
  unfold window. replace (S i - i)%nat with 1%nat by lia.
  revert l; induction i as [|i IH]; intros [|x l]; simpl; try discriminate.
  - intros [= ->]. reflexivity.
  - apply IH.
Qed.

Lemma window_all {A : Type} (l : list A) : window l 0 (List.length l) = l.
Proof. unfold window. rewrite Nat.sub_0_r. simpl. apply firstn_all. Qed.

(** X12.  With a window of zero entries the context of a match is the text
    of its entry alone, and with a window that reaches both ends of the
    transcript from every entry ([transcript.length <= contextWords + 1])
    the context of every match is the whole transcript, the texts joined by
    one space. *)
Theorem searchInTranscript_context_edges (transcript : list Entry.t) (query : string) :
  (forall r, In r (searchInTranscript transcript query 0) ->
             Match.context r = Match.text r)
  /\ (forall contextWords r,
        (Z.of_nat (List.length transcript) <= contextWords + 1)%Z ->
        In r (searchInTranscript transcript query contextWords) ->
        Match.context r = join " " (map Entry.text transcript)).
Proof.
  split.
  - intros r I. unfold searchInTranscript in I.
    pose proof (scan_fields transcript (toLowerCase query) 0 transcript 0%nat) as F.
    rewrite Forall_forall in F.
    destruct (F r I) as (e & N & _ & _ & T & _ & _ & C). rewrite Nat.sub_0_r in N.
    assert (L : (Match.matchIndex r < List.length transcript)%nat)
      by (apply nth_error_Some; congruence).
    rewrite C, slice_window by lia.
    replace (Z.to_nat (Z.max 0 (Z.of_nat (Match.matchIndex r) - 0)))
      with (Match.matchIndex r) by lia.
    replace (Z.to_nat (Z.min (Z.of_nat (List.length transcript))
                         (Z.of_nat (Match.matchIndex r) + 0 + 1)))
      with (S (Match.matchIndex r)) by lia.
    rewrite (window_one _ _ _ N), T. simpl. reflexivity.
  - intros cw r Big I. unfold searchInTranscript in I.
    pose proof (scan_fields transcript (toLowerCase query) cw transcript 0%nat) as F.
    rewrite Forall_forall in F.
    destruct (F r I) as (e & N & _ & _ & _ & _ & _ & C). rewrite Nat.sub_0_r in N.
    assert (L : (Match.matchIndex r < List.length transcript)%nat)
      by (apply nth_error_Some; congruence).
    rewrite C, slice_window by lia.
    replace (Z.to_nat (Z.max 0 (Z.of_nat (Match.matchIndex r) - cw)))
      with 0%nat by lia.
    replace (Z.to_nat (Z.min (Z.of_nat (List.length transcript))
                         (Z.of_nat (Match.matchIndex r) + cw + 1)))
      with (List.length transcript) by lia.
    rewrite window_all. reflexivity.
Qed.

(* ================================================================== *)
(** ** Further properties of the resolver: the extent of the URL *)

(** A greedy iteration before a continuation that always accepts stops
    where the class stops. *)
Lemma star_boundary {A : Type} (p : ascii -> bool) (s : string)
      (k : string -> option A) (x : A) :
  (forall v, k v <> None) ->
  star p s k = Some x ->
  exists u v, s = u ++ v /\ all p u = true /\ k v = Some x /\ at_boundary p v.
Proof.
  intros Total. induction s as [|c s IH]; simpl.
  - intros K. exists "", "". repeat split; auto. left; reflexivity.
  - destruct (p c) eqn:E.
    + destruct (star p s k) as [y|] eqn:S1.
      * intros [= ->]. destruct (IH eq_refl) as (u & v & -> & P & K & B).
        exists (String c u), v. simpl. rewrite E. auto.
      * exfalso. apply (star_complete p "" s k eq_refl (Total s)). exact S1.
    + intros K. exists "", (String c s). repeat split; auto.
      right. eauto.
Qed.

Lemma run_boundary {A : Type} (p : ascii -> bool) (r : regex) :
  ends_with_star p r ->
  forall (s : string) (cap : option string)
         (k : string -> option string -> option A) (x : A),
    (forall v c, k v c <> None) ->
    run r s cap k = Some x ->
    exists u v cap',
      s = u ++ v /\ derives r u cap cap' /\ k v cap' = Some x /\ at_boundary p v.
Proof.
  induction 1 as [|r1 r2 _ IH]; intros s cap k x Total; cbn [run].
  - intros H. apply star_boundary in H as (u & v & -> & P & K & B); auto.
    exists u, v, cap. repeat split; auto. constructor; auto.
  - intros H. apply run_sound in H as (u & v & c' & -> & D & K).
    apply IH in K as (u2 & v2 & c2 & -> & D2 & K2 & B); auto.
    exists (u ++ u2), v2, c2. rewrite append_assoc. repeat split; auto.
    econstructor; eauto.
Qed.

Lemma exec_match_here (r : regex) (s : string) (m : result) :
  exec r s = Some m ->
  exists pre rest, s = pre ++ rest /\ match_here r rest = Some m.
Proof.
  induction s as [|c s IH]; cbn [exec].
  - destruct (match_here r "") eqn:E; [|discriminate].
    intros [= ->]. exists "", "". auto.
  - destruct (match_here r (String c s)) eqn:E.
    + intros [= ->]. exists "", (String c s). auto.
    + intros H. destruct (IH H) as (pre & rest & -> & M).
      exists (String c pre), rest. auto.
Qed.

Lemma urlPatterns_end (pattern : regex) :
  In pattern urlPatterns -> ends_with_star not_space pattern.
Proof.
  intros [<- | [<- | [<- | []]]]; repeat first [apply ends_Star | apply ends_Seq].
Qed.

Lemma urlPatterns_no_space (pattern : regex) (span : string) (c : option string) :
  In pattern urlPatterns -> derives pattern span None c ->
  all not_space span = true.
Proof.
  intros [<- | [<- | [<- | []]]] D; invert_derives;
    repeat rewrite all_app;
    repeat (apply andb_true_intro; split);
    first [ assumption
          | reflexivity
          | apply (all_weaken id_char not_space); [exact id_char_not_space | assumption] ].
Qed.

(** The URL found is a run of characters that are not white space, up to
    the next white space or to the end of the command. *)
Lemma url_span_token (command span : string) :
  extractUrlFromCommand command = Some span ->
  all not_space span = true
  /\ exists pre post,
       command = pre ++ span ++ post /\ at_boundary not_space post.
Proof.
  unfold extractUrlFromCommand.
  destruct (first_match_spec urlPatterns command (fun m => Some (m0 m)) None)
    as [(i & pattern & m & N & _ & E & ->) | (_ & ->)]; [|discriminate].
  intros [= <-]. pose proof (nth_error_In _ _ N) as I.
  apply exec_match_here in E as (pre & rest & -> & M).
  unfold match_here in M.
  apply (run_boundary not_space pattern (urlPatterns_end pattern I)) in M
    as (u & v & c' & -> & D & K & B); [|discriminate].
  rewrite consumed_app in K. injection K as <-. cbn [m0].
  split; [eapply urlPatterns_no_space; eauto|].
  exists pre, v. auto.
Qed.

(** X13.  The URL that [extractUrlFromCommand] returns has no white space
    in it and runs to the next white space of the command or to its end:
    what follows the identifier in the same word, parameters or
    punctuation, is part of the URL. *)
Theorem extractUrlFromCommand_whole_word (command : string) :
  match extractUrlFromCommand command with
  | Some span =>
      all is_space span = false
      /\ all not_space span = true
      /\ exists pre post,
           command = pre ++ span ++ post
           /\ (post = "" \/ exists c post', post = String c post' /\ is_space c = true)
  | None => True
  end.
Proof.
  destruct (extractUrlFromCommand command) as [span|] eqn:E; [|exact I].
  destruct (url_span_token _ _ E) as (P & pre & post & C & B).
  destruct (extracted_url_resolves _ _ E) as (T & _).
  split; [|split; [exact P|]].
  - destruct span as [|c span]; [discriminate|]. simpl in *.
    apply andb_true_iff in P as [Pc _]. unfold not_space in Pc.
    apply negb_true_iff in Pc. rewrite Pc. reflexivity.
  - exists pre, post. split; auto.
    destruct B as [-> | (c & post' & -> & Nc)]; auto.
    right. exists c, post'. split; auto.
    unfold not_space in Nc. apply negb_false_iff in Nc. exact Nc.
Qed.

Example extractUrl_takes_punctuation :
  extractUrlFromCommand "see https://youtu.be/P2DfG5JEAmA, thanks"
  = Some "https://youtu.be/P2DfG5JEAmA,".
Proof. reflexivity. Qed.

(* ================================================================== *)
(** ** Further properties of the resolver: the URL of a stored video *)

Lemma exec_leftmost_here (r : regex) (s : string) (m : result) :
  exec r s = Some m ->
  exists pre rest,
    s = pre ++ rest /\ match_here r rest = Some m
    /\ forall n' u', occurs r s n' u' -> (String.length pre <= n')%nat.
Proof.
  induction s as [|c s IH]; cbn [exec].
  - destruct (match_here r "") eqn:E; [|discriminate].
    intros [= ->]. exists "", "". repeat split; auto. intros; simpl; lia.
  - destruct (match_here r (String c s)) eqn:E.
    + intros [= ->]. exists "", (String c s). repeat split; auto. intros; simpl; lia.
    + intros H. destruct (IH H) as (pre & rest & -> & M & Min).
      exists (String c pre), rest. repeat split; auto.
      intros [|n'] u' O'.
      * exfalso. destruct O' as (pre' & post' & H' & L' & W).
        destruct pre'; [|discriminate]. simpl in H'.
        apply (match_here_complete r u' post' W). rewrite <- H'. exact E.
      * apply occurs_tail in O'. apply Min in O'. simpl. lia.
Qed.

Lemma boundary_inside (p : ascii -> bool) (a post : string) :
  all p (a ++ post) = true -> at_boundary p post -> post = "".
Proof.
  intros P [-> | (c & post' & -> & N)]; auto.
  rewrite all_app in P. apply andb_true_iff in P as [_ P]. simpl in P.
  rewrite N in P. discriminate.
Qed.

Lemma no_y_before (a b pre t : string) :
  all (fun c => negb (Ascii.eqb c "y")) a = true ->
  a ++ b = pre ++ String "y" t ->
  (String.length a <= String.length pre)%nat.
Proof.
  revert pre; induction a as [|c a IH]; intros pre P H; simpl in *; [lia|].
  apply andb_true_iff in P as [Pc Pa].
  destruct pre as [|d pre]; simpl in H.
  - injection H as -> _. discriminate.
  - injection H as _ H. apply IH in H; auto. simpl. lia.
Qed.

Lemma shape_starts_with_y (shape : string) :
  In shape video_shapes -> exists t, shape = String "y" t.
Proof. intros [<- | [<- | [<- | []]]]; eauto. Qed.

(** X14.  The URL that the server gives to a stored video,
    [https://www.youtube.com/watch?v=] followed by the identifier, resolves
    to that identifier, and [extractUrlFromCommand] finds the whole of it:
    adding a stored video by the URL the server reports for it, with either
    tool, reports AlreadyLoaded and changes nothing. *)
Theorem canonical_url_round_trip
        (fetchTranscript : list (string * string) -> string -> string -> string + list Caption.t)
        (id : string) (lg : option string) (st : server) :
  is_video_id id = true ->
  let u := VideoInfo.url (getVideoInfo id) in
  extractVideoId u = Some id
  /\ extractUrlFromCommand u = Some u
  /\ (JsMap.has id (videos st) = true ->
      addYouTubeVideo fetchTranscript {| url := u; language := lg |} st
      = (AlreadyLoaded id, st)
      /\ transcribeFromCommand fetchTranscript {| command := u; t_language := lg |} st
         = (AlreadyLoaded id, st)).
Proof.
  intros V. cbv zeta. cbn [getVideoInfo VideoInfo.url].
  pose proof (is_video_id_elim _ V) as [L P].
  assert (R : extractVideoId ("https://www.youtube.com/watch?v=" ++ id) = Some id).
  { apply (extractVideoId_leftmost_shape _ 12%nat).
    - exists "https://www.", "youtube.com/watch?v=", "".
      rewrite append_nil_r. repeat split; simpl; auto.
    - intros n' id' (pre' & shape & rest & H & Ln & I & _).
      apply shape_starts_with_y in I as (t & ->). subst n'.
      apply (no_y_before "https://www." ("youtube.com/watch?v=" ++ id) pre'
               (t ++ id' ++ rest)); [reflexivity | exact H]. }
  assert (NS : all not_space ("https://www.youtube.com/watch?v=" ++ id) = true).
  { rewrite all_app. apply andb_true_intro. split; [reflexivity|].
    apply (all_weaken id_char not_space); [exact id_char_not_space | exact P]. }
  assert (U : extractUrlFromCommand ("https://www.youtube.com/watch?v=" ++ id)
              = Some ("https://www.youtube.com/watch?v=" ++ id)).
  { unfold extractUrlFromCommand, urlPatterns. cbn [first_match].
    match goal with
    | |- context [exec ?p ?s] =>
        assert (W : lang p ("https://www.youtube.com/watch?v=" ++ id));
        [| destruct (exec p s) as [m|] eqn:E;
           [| exfalso; apply (exec_none _ _ E 0%nat ("https://www.youtube.com/watch?v=" ++ id));
              exists "", ""; rewrite append_nil_r; auto ] ]
    end.
    - apply (lang_Seq _ _ "http"); [apply lang_Lit|].
      apply (lang_Seq _ _ "s"); [apply lang_OptSome, lang_Lit|].
      apply (lang_Seq _ _ "://"); [apply lang_Lit|].
      apply (lang_Seq _ _ "www."); [apply lang_OptSome, lang_AltL, lang_Lit|].
      apply (lang_Seq _ _ "youtube.com/watch?v=").
      { apply lang_AltL. apply (lang_Seq _ _ "youtube.com/watch?" "v="); [apply lang_Lit|].
        apply (lang_Seq _ _ "" "v="); [apply lang_Star; reflexivity | apply lang_Lit]. }
      rewrite <- (append_nil_r id) at 1.
      apply lang_Seq; [apply lang_Group, lang_Class; auto | apply lang_Star; reflexivity].
    - apply exec_leftmost_here in E as (pre & rest & H & M & Min).
      assert (L0 : (String.length pre <= 0)%nat).
      { apply (Min 0%nat ("https://www.youtube.com/watch?v=" ++ id)).
        exists "", "". rewrite append_nil_r. auto. }
      destruct pre; [|simpl in L0; lia].
      assert (Hr : rest = "https://www.youtube.com/watch?v=" ++ id)
        by (symmetry; exact H).
      subst rest. unfold match_here in M.
      apply (run_boundary not_space) in M as (u & v & c' & Huv & D & K & B);
        [| repeat first [apply ends_Star | apply ends_Seq] | discriminate].
      rewrite Huv in NS. apply (boundary_inside _ _ _ NS) in B. subst v.
      rewrite append_nil_r in Huv. rewrite Huv in K.
      rewrite <- (append_nil_r u) in K at 1. rewrite consumed_app in K.
      injection K as <-. cbn [m0]. congruence. }
  split; [exact R|]. split; [exact U|].
  intros H. split.
  - apply add_present; auto.
  - unfold transcribeFromCommand. cbn [command t_language]. rewrite U.
    cbn [truthy append negb]. apply add_present; auto.
Qed.

(** The theorem on the sample server, for a stored video. *)
Lemma canonical_url_round_trip_witness :
  is_video_id "P2DfG5JEAmA" = true
  /\ extractUrlFromCommand "https://www.youtube.com/watch?v=P2DfG5JEAmA"
     = Some "https://www.youtube.com/watch?v=P2DfG5JEAmA"
  /\ extractVideoId "https://www.youtube.com/watch?v=P2DfG5JEAmA" = Some "P2DfG5JEAmA".
Proof.
  split; [reflexivity|].
  pose proof (canonical_url_round_trip sample_provider "P2DfG5JEAmA" None
                sample_server eq_refl) as H.
  split; [exact (proj1 (proj2 H)) | exact (proj1 H)].
Defined.

(* ================================================================== *)
(** ** Further properties of the facade: the time stamps of a transcript *)

Lemma Qfloor_unique (x : Q) (z : Z) :
  inject_Z z <= x -> x < inject_Z (z + 1) -> Qfloor x = z.
Proof.
  intros Lo Hi.
  pose proof (Qfloor_le x) as F1. pose proof (Qlt_floor x) as F2.
  assert (A : (z < Qfloor x + 1)%Z).
  { rewrite Zlt_Qlt. eapply Qle_lt_trans; eauto. }
  assert (B : (Qfloor x < z + 1)%Z).
  { rewrite Zlt_Qlt. eapply Qle_lt_trans; eauto. }
  lia.
Qed.

(** Minutes and seconds of a time that is not negative. *)
Lemma stamp_spec (x : Q) :
  0 <= x ->
  let minutes := JsNumber.floor (x / 60) in
  let seconds := JsNumber.floor (JsNumber.rem x 60) in
  (0 <= minutes)%Z /\ (0 <= seconds < 60)%Z
  /\ (60 * minutes + seconds = Qfloor x)%Z.
Proof.
  intros Pos. cbv zeta. unfold JsNumber.floor, JsNumber.rem, JsNumber.trunc.
  set (z := x / 60).
  assert (Hx : x == z * 60) by (unfold z; field).
  assert (Pz : 0 <= z) by lra.
  assert (T : Qle_bool 0 z = true) by (apply Qle_bool_iff; exact Pz).
  rewrite T.
  set (m := Qfloor z).
  pose proof (Qfloor_le z) as M1. pose proof (Qlt_floor z) as M2. fold m in M1, M2.
  rewrite inject_Z_plus in M2. change (inject_Z 1) with 1 in M2.
  set (y := x - 60 * inject_Z m).
  assert (Y1 : 0 <= y) by (unfold y; lra).
  assert (Y2 : y < 60) by (unfold y; lra).
  pose proof (Qfloor_le y) as S1. pose proof (Qlt_floor y) as S2.
  set (s := Qfloor y) in *.
  rewrite inject_Z_plus in S2. change (inject_Z 1) with 1 in S2.
  assert (Pm : (0 <= m)%Z).
  { change 0%Z with (Qfloor 0). apply Qfloor_resp_le. exact Pz. }
  assert (Ps : (0 <= s)%Z).
  { change 0%Z with (Qfloor 0). apply Qfloor_resp_le. exact Y1. }
  assert (Hs : (s < 60)%Z).
  { rewrite Zlt_Qlt. change (inject_Z 60) with 60. lra. }
  split; [exact Pm|]. split; [lia|].
  symmetry. apply Qfloor_unique.
  - rewrite inject_Z_plus, inject_Z_mult. change (inject_Z 60) with 60.
    unfold y in S1. lra.
  - rewrite !inject_Z_plus, inject_Z_mult. change (inject_Z 60) with 60.
    change (inject_Z 1) with 1. unfold y in S2. lra.
Qed.

Lemma Forall2_map_right {A B : Type} (R : A -> B -> Prop) (f : A -> B) (l : list A) :
  (forall a, R a (f a)) -> Forall2 R l (map f l).
Proof. intros H. induction l; simpl; constructor; auto. Qed.

(** X15.  For a stored video and a format other than [json],
    [getVideoTranscript] returns one line for each entry of the transcript,
    in order, with the text of the entry; for an entry whose start is not
    negative the minutes and the seconds of the line are the whole seconds
    of the start: the seconds are between 0 and 59, and sixty times the
    minutes plus the seconds is the start rounded down. *)
Theorem getVideoTranscript_text_stamps
        (args : transcript_args) (st : server) (v : Video.t) :
  JsMap.get (videoId args) (videos st) = Some v ->
  default "text" (format args) <> "json" ->
  exists lines,
    getVideoTranscript args st
    = (TranscriptText (Video.title v) (videoId args) (Video.url v) lines, st)
    /\ Forall2 (fun e line =>
                  snd line = Entry.text e
                  /\ (0 <= Entry.start e ->
                      (0 <= fst (fst line))%Z
                      /\ (0 <= snd (fst line) < 60)%Z
                      /\ (60 * fst (fst line) + snd (fst line)
                          = Qfloor (Entry.start e))%Z))
         (Video.transcript v) lines.
Proof.
  intros G F. unfold getVideoTranscript, bind, get_videos, ret. rewrite G.
  apply String.eqb_neq in F. rewrite F.
  eexists. split; [reflexivity|].
  apply Forall2_map_right. intros e. cbn [fst snd]. split; [reflexivity|].
  intros Pos. apply (stamp_spec (Entry.start e) Pos).
Qed.

(** The theorem on the sample server, in the default format. *)
Lemma getVideoTranscript_text_stamps_witness :
  fst (getVideoTranscript {| videoId := "P2DfG5JEAmA"; format := None |} sample_server)
  = TranscriptText "Video P2DfG5JEAmA" "P2DfG5JEAmA"
      "https://www.youtube.com/watch?v=P2DfG5JEAmA"
      [ (0%Z, 1%Z, "we never stop"); (0%Z, 0%Z, "Never say never") ]
  /\ exists v lines,
       JsMap.get "P2DfG5JEAmA" (videos sample_server) = Some v
       /\ getVideoTranscript {| videoId := "P2DfG5JEAmA"; format := None |} sample_server
          = (TranscriptText (Video.title v) "P2DfG5JEAmA" (Video.url v) lines,
             sample_server).
Proof.
  split; [reflexivity|].
  eexists.
  assert (G : JsMap.get "P2DfG5JEAmA" (videos sample_server) = Some _)
    by (vm_compute; reflexivity).
  destruct (getVideoTranscript_text_stamps
              {| videoId := "P2DfG5JEAmA"; format := None |} sample_server _ G
              ltac:(discriminate)) as (lines & R & _).
  exists lines. split; [exact G | exact R].
Defined.
